(** * Sudoku solver: a shallow embedding of [sudoku_solver.py]

    The Python program keeps the board as a list of nine lists of nine
    integers, mutated in place by the search.  Here the board is a value of
    type [list (list Z)] threaded through the search: [solve] returns the
    verdict together with the board it leaves behind.  Python integers are
    [Z], Python sets of digits are finite sets [gset Z], and the indices,
    which the program draws from [range(9)], are [nat].

    The recursion of [solve] is bounded by a fuel that counts nested calls;
    the loops with early [return] are recursive functions over the list of
    the values they iterate on.  The program's input is a list of lines of
    ASCII text, its output the list of the events of a run. *)

From Stdlib Require Import ZArith String Ascii.
From stdpp Require Import base numbers option list sets gmap sorting pretty.

Local Open Scope Z_scope.

(** ** The board *)

(** [Grid = List[List[int]]].  The rows are separate list objects: [main]
    hands [solve] the result of [copy_grid], whose rows are fresh copies, and
    [read_grid_from_stdin] builds every row afresh. *)
Abbreviation Grid := (list (list Z)).

(** A board as the program expects it: nine rows of nine cells. *)
Definition wf_grid (g : Grid) : Prop :=
  length g = 9%nat ∧ Forall (λ row, length row = 9%nat) g.

#[global] Instance wf_grid_dec (g : Grid) : Decision (wf_grid g).
Proof. unfold wf_grid. apply _. Defined.

(** [grid[r]] and [grid[r][c]].  Python raises [IndexError] when an index is
    outside the list; the lookups below are total and answer [[]] and [0]
    there.  Every index the program uses comes from [range(9)], so on a
    [wf_grid] no lookup leaves the board (lemma [cell_checked_in_range]). *)
Definition row (g : Grid) (r : nat) : list Z := default [] (g !! r).
Definition cell (g : Grid) (r c : nat) : Z := default 0 (row g r !! c).

(** The checked lookup, with [None] for [IndexError]. *)
Definition cell_checked (g : Grid) (r c : nat) : option Z :=
  g !! r ≫= (.!! c).

(** [grid[r][c] = d]: the row object at index [r] is updated at index [c].
    Outside the board Python raises [IndexError] and [alter] changes nothing;
    the search only writes to cells that [find_mrv_cell] returned, which are
    on the board. *)
Definition set_cell (g : Grid) (r c : nat) (d : Z) : Grid :=
  alter (<[c := d]>) r g.

(** ** Candidate engine *)

(** [set(grid[r]) - {0}] *)
Definition row_vals (g : Grid) (r : nat) : gset Z :=
  list_to_set (row g r) ∖ {[0]}.

(** [{grid[r][c] for r in range(9)} - {0}] *)
Definition col_cells (g : Grid) (c : nat) : list Z :=
  (λ r, cell g r c) <$> seq 0 9.
Definition col_vals (g : Grid) (c : nat) : gset Z :=
  list_to_set (col_cells g c) ∖ {[0]}.

(** [br, bc = (r // 3) * 3, (c // 3) * 3] and the nine cells
    [grid[rr][cc] for rr in range(br, br + 3) for cc in range(bc, bc + 3)]. *)
Definition box_coords (br bc : nat) : list (nat * nat) :=
  rr ← seq br 3; cc ← seq bc 3; [(rr, cc)].
Definition box_cells (g : Grid) (br bc : nat) : list Z :=
  (λ p, cell g p.1 p.2) <$> box_coords br bc.
Definition box_vals (g : Grid) (r c : nat) : gset Z :=
  let br := (r / 3 * 3)%nat in
  let bc := (c / 3 * 3)%nat in
  list_to_set (box_cells g br bc) ∖ {[0]}.

(** [candidates]: the empty set on a filled cell, otherwise the digits of
    [range(1, 10)] that are not used in the row, the column or the box. *)
Definition candidates (g : Grid) (r c : nat) : gset Z :=
  if decide (cell g r c ≠ 0) then ∅
  else
    let used := row_vals g r ∪ col_vals g c ∪ box_vals g r c in
    list_to_set (filter (λ d, d ∉ used) (seqZ 1 9)).

(** ** MRV selector *)

(** The scan order of [for r in range(9): for c in range(9)]. *)
Definition scan_order : list (nat * nat) :=
  r ← seq 0 9; c ← seq 0 9; [(r, c)].

(** The loop of [find_mrv_cell] over the remaining coordinates.  [best] holds
    the two local variables [best] and [best_cands], which the code sets
    together: [None] is [best is None]. *)
Fixpoint mrv_scan (g : Grid) (cs : list (nat * nat))
    (best : option (nat * nat * gset Z)) : option (nat * nat * gset Z) :=
  match cs with
  | [] => best
  | (r, c) :: cs' =>
      if decide (cell g r c = 0) then
        let cands := candidates g r c in
        if decide (cands = ∅) then Some (r, c, ∅)
        else if match best with
                | None => true
                | Some (_, best_cands) =>
                    bool_decide (size cands < size best_cands)%nat
                end
        then
          if decide (size cands = 1%nat) then Some (r, c, cands)
          else mrv_scan g cs' (Some (r, c, cands))
        else mrv_scan g cs' best
      else mrv_scan g cs' best
  end.

Definition find_mrv_cell (g : Grid) : option (nat * nat * gset Z) :=
  mrv_scan g scan_order None.

(** ** Backtracking search *)

(** [sorted(cands)] *)
Definition sorted (s : gset Z) : list Z := merge_sort Z.le (elements s).

(** The loop [for d in sorted(cands)] of [solve], with the recursive call
    abstracted as [rec].  [None] is a recursion that ran out of fuel. *)
Fixpoint try_digits (rec : Grid → option (bool * Grid)) (r c : nat)
    (ds : list Z) (g : Grid) : option (bool * Grid) :=
  match ds with
  | [] => Some (false, g)
  | d :: ds' =>
      match rec (set_cell g r c d) with
      | None => None
      | Some (true, g') => Some (true, g')
      | Some (false, g') => try_digits rec r c ds' (set_cell g' r c 0)
      end
  end.

(** [solve], with [fuel] bounding the number of nested calls. *)
Fixpoint solve_fuel (fuel : nat) (g : Grid) : option (bool * Grid) :=
  match fuel with
  | O => None
  | S fuel' =>
      match find_mrv_cell g with
      | None => Some (true, g)
      | Some (r, c, cands) =>
          if decide (cands = ∅) then Some (false, g)
          else try_digits (solve_fuel fuel') r c (sorted cands) g
      end
  end.

(** Number of empty cells of the board: the cells that the double loop of
    [find_mrv_cell] finds equal to [0]. *)
Definition count_empty (g : Grid) : nat :=
  length (filter (λ p, cell g p.1 p.2 = 0) scan_order).

(** [solve]: one more nested call than there are empty cells is always
    enough, and more changes nothing. *)
Definition solve (g : Grid) : option (bool * Grid) :=
  solve_fuel (S (count_empty g)) g.

(** ** Validator *)

(** [len(vals) != len(set(vals))] is the negation of this test. *)
Definition all_distinct (vals : list Z) : bool :=
  bool_decide (length vals = size (list_to_set vals : gset Z)).

(** The three loops of [is_valid_grid]; each returns [False] at the first
    unit whose nonzero values repeat. *)
Definition rows_ok (g : Grid) : bool :=
  forallb (λ r, all_distinct (filter (λ v, v ≠ 0) (row g r))) (seq 0 9).
Definition cols_ok (g : Grid) : bool :=
  forallb (λ c, all_distinct (filter (λ v, v ≠ 0) (col_cells g c))) (seq 0 9).
Definition box_origins : list (nat * nat) :=
  br ← [0; 3; 6]%nat; bc ← [0; 3; 6]%nat; [(br, bc)].
Definition boxes_ok (g : Grid) : bool :=
  forallb (λ o, all_distinct (filter (λ v, v ≠ 0) (box_cells g o.1 o.2)))
          box_origins.
Definition is_valid_grid (g : Grid) : bool :=
  rows_ok g && cols_ok g && boxes_ok g.

(** ** The default puzzle of [main] *)

Definition GRID : Grid :=
  [ [5;3;0;0;7;0;0;0;0];
    [6;0;0;1;9;5;0;0;0];
    [0;9;8;0;0;0;0;6;0];
    [8;0;0;0;6;0;0;0;3];
    [4;0;0;8;0;3;0;0;1];
    [7;0;0;0;2;0;6;0;0];
    [0;6;0;0;0;0;2;8;0];
    [0;0;0;4;1;9;0;0;5];
    [0;0;0;0;8;0;0;7;9] ].

(** ** Reading the puzzle *)

(** Standard input is a list of lines of ASCII text (a line may still carry
    its newline).  The character tests below are Python's [str.isspace] and
    [str.isdigit] on ASCII characters. *)
Definition is_space (a : ascii) : bool :=
  let n := nat_of_ascii a in
  ((9 <=? n) && (n <=? 13) || (28 <=? n) && (n <=? 32))%nat.

Definition is_digit (a : ascii) : bool :=
  let n := nat_of_ascii a in ((48 <=? n) && (n <=? 57))%nat.

Definition digit_of (a : ascii) : Z := Z.of_nat (nat_of_ascii a) - 48.

Fixpoint drop_spaces (l : list ascii) : list ascii :=
  match l with
  | a :: l' => if is_space a then drop_spaces l' else l
  | [] => []
  end.

(** [line.strip()] *)
Definition strip (line : string) : string :=
  string_of_list_ascii
    (reverse (drop_spaces (reverse (drop_spaces (list_ascii_of_string line))))).

(** [line.replace(",", " ")] *)
Definition replace_commas (line : string) : string :=
  string_of_list_ascii
    ((λ a, if Ascii.eqb a "," then " "%char else a) <$>
       list_ascii_of_string line).

(** [s.split()]: the maximal runs of characters that are not whitespace;
    [cur] is the run being read, last character first. *)
Fixpoint split_go (cur : list ascii) (l : list ascii) : list string :=
  match l with
  | [] =>
      match cur with
      | [] => []
      | _ => [string_of_list_ascii (reverse cur)]
      end
  | a :: l' =>
      if is_space a then
        match cur with
        | [] => split_go [] l'
        | _ => string_of_list_ascii (reverse cur) :: split_go [] l'
        end
      else split_go (a :: cur) l'
  end.

Definition split (s : string) : list string :=
  split_go [] (list_ascii_of_string s).

(** [parts = [p for p in line.replace(",", " ").split() if p]]; the pieces
    of [split()] are never empty, so the filter keeps them all. *)
Definition parts_of (line : string) : list string :=
  filter (λ p, p ≠ EmptyString) (split (replace_commas line)).

(** [int(x)] on a token without whitespace: an optional sign, then decimal
    digits, with single underscores allowed between digits.  [None] is
    [ValueError].  [seen] tells whether the previous character was a
    digit.  (The interpreter's cap on the number of digits of a literal is
    left out.) *)
Fixpoint int_digits (acc : Z) (seen : bool) (l : list ascii) : option Z :=
  match l with
  | [] => if seen then Some acc else None
  | a :: l' =>
      if is_digit a then int_digits (10 * acc + digit_of a) true l'
      else if Ascii.eqb a "_" then
        if seen then int_digits acc false l' else None
      else None
  end.

Definition py_int (x : string) : option Z :=
  match list_ascii_of_string x with
  | a :: l =>
      if Ascii.eqb a "+" then int_digits 0 false l
      else if Ascii.eqb a "-" then Z.opp <$> int_digits 0 false l
      else int_digits 0 false (a :: l)
  | [] => None
  end.

(** [[int(x) for x in parts]], [None] when some [int(x)] raises. *)
Definition ints_of (parts : list string) : option (list Z) := mapM py_int parts.

(** [len(line) == 9 and all(c.isdigit() for c in line)] *)
Definition nine_digits (line : string) : bool :=
  (String.length line =? 9)%nat && forallb is_digit (list_ascii_of_string line).

(** [[int(c) for c in line]] on a line of digits *)
Definition digits_of (line : string) : list Z :=
  digit_of <$> list_ascii_of_string line.

(** [return lines if len(lines) == 9 else None] *)
Definition finish (lines : list (list Z)) : option Grid :=
  if (length lines =? 9)%nat then Some lines else None.

(** The loop [for line in sys.stdin] of [read_grid_from_stdin]; [lines] is
    the list built so far. *)
Fixpoint read_lines (stdin : list string) (lines : list (list Z))
  : option Grid :=
  match stdin with
  | [] => finish lines
  | line :: rest =>
      let line := strip line in
      if decide (line = EmptyString) then read_lines rest lines
      else
        let parts := parts_of line in
        if (length parts =? 9)%nat then
          match ints_of parts with
          | None => None
          | Some row =>
              let lines := lines ++ [row] in
              if (length lines =? 9)%nat then finish lines
              else read_lines rest lines
          end
        else
          let lines :=
            if nine_digits line then lines ++ [digits_of line] else lines in
          if (length lines =? 9)%nat then finish lines
          else read_lines rest lines
  end.

Definition read_grid_from_stdin (stdin : list string) : option Grid :=
  read_lines stdin [].

(** ** Printing the board *)

(** [print_grid]: the printed lines, in order. *)
Definition print_row (g : Grid) (r : nat) : string :=
  String.concat " "
    (c ← seq 0 9;
     (if (c mod 3 =? 0)%nat && negb (c =? 0)%nat then ["|"%string] else []) ++
     [if decide (cell g r c ≠ 0) then pretty (cell g r c) else "."%string]).

Definition print_grid (g : Grid) : list string :=
  r ← seq 0 9;
  (if (r mod 3 =? 0)%nat && negb (r =? 0)%nat
   then ["------+-------+------"%string] else []) ++
  [print_row g r].

(** ** The program *)

(** [[row[:] for row in g]] *)
Definition copy_grid (g : Grid) : Grid := (λ row, row) <$> g.

(** What the program does to the outside world, in order: the lines it
    prints, the call of [solve] with the board it is given, and
    [sys.exit]. *)
Inductive event :=
  | Print (line : string)
  | Solve (work : Grid)
  | Exit (status : Z).

Definition newline : string := String "010"%char EmptyString.

(** The board [main] works on: the one read from standard input if there is
    one ([if stdin_grid:] is false on [None] and on an empty list), the
    default puzzle otherwise. *)
Definition main_grid (stdin : list string) : Grid :=
  match read_grid_from_stdin stdin with
  | Some (row0 :: rows) => row0 :: rows
  | Some [] | None => GRID
  end.

(** [main]: the events of a run, [None] if the search ran out of fuel. *)
Definition main (stdin : list string) : option (list event) :=
  let GRID := main_grid stdin in
  if negb (is_valid_grid GRID) then
    Some [Print "Invalid puzzle (duplicates in row/col/box)."; Exit 1]
  else
    let work := copy_grid GRID in
    match solve work with
    | None => None
    | Some (true, work') =>
        Some ([Print "Input:"] ++ (Print <$> print_grid GRID) ++
              [Solve work; Print (newline ++ "Solved:")] ++
              (Print <$> print_grid work'))
    | Some (false, work') =>
        Some ([Print "Input:"] ++ (Print <$> print_grid GRID) ++
              [Solve work; Print (newline ++ "No solution exists.")])
    end.

(** The exit status of a run: the argument of [sys.exit] if the run ends
    with it, [0] when [main] returns. *)
Definition exit_status (run : list event) : Z :=
  match last run with
  | Some (Exit status) => status
  | _ => 0
  end.

Definition is_solve (e : event) : Prop :=
  match e with Solve _ => True | _ => False end.

(** ** Notions about the input *)

(** The row [row] is what the loop of [read_grid_from_stdin] appends for the
    stripped line [l]: the integers of its nine tokens, or its nine digits. *)
Definition row_from (l : string) (row : list Z) : Prop :=
  (length (parts_of l) = 9%nat ∧ ints_of (parts_of l) = Some row) ∨
  (nine_digits l = true ∧ row = digits_of l ∧ Forall (λ v, 0 ≤ v ≤ 9) row).

(** The stripped line has one of the two accepted shapes. *)
Definition accepts (l : string) : bool :=
  (length (parts_of l) =? 9)%nat || nine_digits l.

Definition accepted_lines (stdin : list string) : nat :=
  length (filter (λ line, accepts (strip line) = true) stdin).

Definition is_exit (e : event) : Prop :=
  match e with Exit _ => True | _ => False end.



(** Nine lines of nine digits with two fives in each row. *)
Definition two_fives_input : list string := replicate 9 "550000000"%string.

(** ** Boards used as examples *)

(** The well-known puzzle that the default puzzle resembles (it differs from
    [GRID] in row 5) and its solution. *)
Definition classic : Grid :=
  [ [5;3;0;0;7;0;0;0;0];
    [6;0;0;1;9;5;0;0;0];
    [0;9;8;0;0;0;0;6;0];
    [8;0;0;0;6;0;0;0;3];
    [4;0;0;8;0;3;0;0;1];
    [7;0;0;0;2;0;0;0;6];
    [0;6;0;0;0;0;2;8;0];
    [0;0;0;4;1;9;0;0;5];
    [0;0;0;0;8;0;0;7;9] ].

Definition classic_solution : Grid :=
  [ [5;3;4;6;7;8;9;1;2];
    [6;7;2;1;9;5;3;4;8];
    [1;9;8;3;4;2;5;6;7];
    [8;5;9;7;6;1;4;2;3];
    [4;2;6;8;5;3;7;9;1];
    [7;1;3;9;2;4;8;5;6];
    [9;6;1;5;3;7;2;8;4];
    [2;8;7;4;1;9;6;3;5];
    [3;4;5;2;8;6;1;7;9] ].

(** The empty board. *)
Definition zeros : Grid := replicate 9 (replicate 9 0).

(** A full board that breaks every constraint. *)
Definition all_fives : Grid := replicate 9 (replicate 9 5).

(** A full board without repeats that holds [10] where the solution of the
    classic puzzle holds [9]. *)
Definition with_tens : Grid :=
  (λ row : list Z, (λ v, if decide (v = 9) then 10 else v) <$> row) <$>
    classic_solution.

(** Two fives in row 0. *)
Definition two_fives : Grid := <[0%nat := [5;5;0;0;0;0;0;0;0]]> zeros.

(** A consistent board on which the first cell has one candidate and the last
    two cells of the last row have none. *)
Definition early_exit : Grid :=
  [ [0;2;3;4;5;6;7;8;9];
    [0;0;0;0;0;0;0;0;0];
    [0;0;0;0;0;0;0;0;0];
    [0;0;0;0;0;0;0;0;0];
    [0;0;0;0;0;0;0;0;0];
    [0;0;0;0;0;0;0;0;0];
    [0;0;0;0;0;0;0;0;8];
    [0;0;0;0;0;0;0;9;0];
    [2;3;4;5;6;7;1;0;0] ].

(** The solution of the classic puzzle with its first cell emptied. *)
Definition one_blank : Grid := set_cell classic_solution 0 0 0.

(** The classic puzzle as nine lines of nine digits. *)
Definition classic_input : list string :=
  [ "530070000"; "600195000"; "098000060";
    "800060003"; "400803001"; "700020006";
    "060000280"; "000419005"; "000080079" ]%string.





(** A puzzle on which the first cell selected has the candidates 2 and 3
    and only 3 leads to a solution. *)
Definition branching : Grid :=
  [ [5;0;0;0;0;0;9;1;0];
    [0;7;0;0;9;5;3;4;0];
    [0;0;8;3;0;0;0;0;7];
    [0;5;0;0;6;0;4;2;3];
    [0;0;6;0;0;0;0;0;0];
    [7;0;0;9;0;4;8;0;0];
    [0;6;0;0;0;0;2;0;4];
    [2;0;0;0;0;0;0;0;0];
    [3;4;0;0;8;0;0;0;9] ].

(** ** Notions used to state the properties *)

Definition in_board (p : nat * nat) : Prop := (p.1 < 9)%nat ∧ (p.2 < 9)%nat.

Definition cells_at (g : Grid) (cs : list (nat * nat)) : list Z :=
  (λ p, cell g p.1 p.2) <$> cs.

Definition row_coords (r : nat) : list (nat * nat) := (λ c, (r, c)) <$> seq 0 9.
Definition col_coords (c : nat) : list (nat * nat) := (λ r, (r, c)) <$> seq 0 9.

(** Arithmetic with [// 3]. *)
Ltac div_facts :=
  repeat match goal with
    | |- context [Nat.div ?a 3] =>
        lazymatch goal with
        | _ : a = (3 * Nat.div a 3 + Nat.modulo a 3)%nat |- _ => fail
        | _ => pose proof (Nat.div_mod_eq a 3);
               pose proof (Nat.mod_upper_bound a 3)
        end
    | _ : context [Nat.div ?a 3] |- _ =>
        lazymatch goal with
        | _ : a = (3 * Nat.div a 3 + Nat.modulo a 3)%nat |- _ => fail
        | _ => pose proof (Nat.div_mod_eq a 3);
               pose proof (Nat.mod_upper_bound a 3)
        end
    end.
Ltac div_lia := div_facts; lia.

Definition same_row (p q : nat * nat) : Prop := p.1 = q.1.
Definition same_col (p q : nat * nat) : Prop := p.2 = q.2.
Definition same_box (p q : nat * nat) : Prop :=
  (p.1 / 3 = q.1 / 3)%nat ∧ (p.2 / 3 = q.2 / 3)%nat.

(** Two different cells of the board hold the same nonzero value. *)
Definition clash (g : Grid) (p q : nat * nat) : Prop :=
  in_board p ∧ in_board q ∧ p ≠ q ∧
  cell g p.1 p.2 ≠ 0 ∧ cell g p.1 p.2 = cell g q.1 q.2.

Definition row_duplicate (g : Grid) : Prop := ∃ p q, same_row p q ∧ clash g p q.
Definition col_duplicate (g : Grid) : Prop := ∃ p q, same_col p q ∧ clash g p q.
Definition box_duplicate (g : Grid) : Prop := ∃ p q, same_box p q ∧ clash g p q.

(** A duplicate nonzero value in some row, some column or some box. *)
Definition has_duplicate (g : Grid) : Prop :=
  row_duplicate g ∨ col_duplicate g ∨ box_duplicate g.

(** The same property told from the cells: cells that share a unit and are
    filled hold different values. *)
Definition peers (p q : nat * nat) : Prop :=
  same_row p q ∨ same_col p q ∨ same_box p q.

Definition consistent (g : Grid) : Prop :=
  ∀ p q, in_board p → in_board q → p ≠ q → peers p q →
         cell g p.1 p.2 ≠ 0 → cell g p.1 p.2 ≠ cell g q.1 q.2.

(** No repeated nonzero value among the cells of one coordinate list. *)
Definition unit_distinct (g : Grid) (cs : list (nat * nat)) : Prop :=
  ∀ p q, p ∈ cs → q ∈ cs → p ≠ q →
         cell g p.1 p.2 ≠ 0 → cell g p.1 p.2 ≠ cell g q.1 q.2.

(** [d] is a nonzero value of a cell of the board picked out by [unit]. *)
Definition used_in (g : Grid) (unit : nat * nat → Prop) (d : Z) : Prop :=
  d ≠ 0 ∧ ∃ q, in_board q ∧ unit q ∧ cell g q.1 q.2 = d.

(** [find_mrv_cell] with a record of the cells for which it asked the
    candidate engine, in the order of the calls.  Erasing the record gives
    [mrv_scan] back (lemma [mrv_scan_log_erase]). *)
Fixpoint mrv_scan_log (g : Grid) (cs : list (nat * nat))
    (best : option (nat * nat * gset Z)) (log : list (nat * nat))
  : option (nat * nat * gset Z) * list (nat * nat) :=
  match cs with
  | [] => (best, log)
  | (r, c) :: cs' =>
      if decide (cell g r c = 0) then
        let cands := candidates g r c in
        let log := log ++ [(r, c)] in
        if decide (cands = ∅) then (Some (r, c, ∅), log)
        else if match best with
                | None => true
                | Some (_, best_cands) =>
                    bool_decide (size cands < size best_cands)%nat
                end
        then
          if decide (size cands = 1%nat) then (Some (r, c, cands), log)
          else mrv_scan_log g cs' (Some (r, c, cands)) log
        else mrv_scan_log g cs' best log
      else mrv_scan_log g cs' best log
  end.

(** The cells whose candidate sets one call of [find_mrv_cell] computes. *)
Definition scanned (g : Grid) : list (nat * nat) :=
  (mrv_scan_log g scan_order None []).2.

(** Position of a cell in the row-major scan. *)
Definition scan_index (p : nat * nat) : nat := (9 * p.1 + p.2)%nat.

(** Size of the candidate set of a cell. *)
Definition cand_size (g : Grid) (p : nat * nat) : nat :=
  size (candidates g p.1 p.2).

(** What holds of the loop variables after the cells in [done]. *)
Definition scan_inv (g : Grid) (done : list (nat * nat))
    (best : option (nat * nat * gset Z)) (log : list (nat * nat)) : Prop :=
  (∀ q, q ∈ done → cell g q.1 q.2 = 0 → q ∈ log) ∧
  (∀ q, q ∈ log → (2 ≤ cand_size g q)%nat ∧ cell g q.1 q.2 = 0 ∧ q ∈ done) ∧
  match best with
  | None => log = []
  | Some (r, c, bc) =>
      bc = candidates g r c ∧ (r, c) ∈ log ∧
      ∃ i, done !! i = Some (r, c) ∧
        ∀ q, q ∈ log →
          (size bc ≤ cand_size g q)%nat ∧
          (cand_size g q = size bc → ∃ j, done !! j = Some q ∧ (i ≤ j)%nat)
  end.

(** What holds of the result over the whole list [all]. *)
Definition scan_post (g : Grid) (all : list (nat * nat))
    (res : option (nat * nat * gset Z)) (log : list (nat * nat)) : Prop :=
  match res with
  | None => log = [] ∧ ∀ q, q ∈ all → cell g q.1 q.2 ≠ 0
  | Some (r, c, cands) =>
      cands = candidates g r c ∧ cell g r c = 0 ∧ (r, c) ∈ log ∧
      ∃ i, all !! i = Some (r, c) ∧
        (∀ j q, all !! j = Some q → cell g q.1 q.2 = 0 →
                (j ≤ i)%nat ∨ (2 ≤ size cands)%nat → q ∈ log) ∧
        ∀ q, q ∈ log →
          cell g q.1 q.2 = 0 ∧
          (size cands ≤ cand_size g q)%nat ∧
          (cand_size g q = size cands → ∃ j, all !! j = Some q ∧ (i ≤ j)%nat)
  end.

(** One recursive call of the search: the nesting depth of the called frame
    (the outermost call of [solve] has depth [0]), the board the calling
    frame was entered with, the cell it selected, the digit it tries, the
    board just before the digit is written and the board handed to the
    recursive call. *)
Record call := Call {
  call_depth : nat;
  call_entry : Grid;
  call_cell : nat * nat;
  call_digit : Z;
  call_before : Grid;
  call_arg : Grid
}.

(** [try_digits] and [solve_fuel] again, recording every recursive call made
    anywhere below, in the order of the calls.  Erasing the record gives
    [solve_fuel] back (lemma [solve_log_erase]). *)
Fixpoint try_digits_log (rec : Grid → option (bool * Grid * list call))
    (depth : nat) (entry : Grid) (r c : nat) (ds : list Z) (g : Grid)
  : option (bool * Grid * list call) :=
  match ds with
  | [] => Some (false, g, [])
  | d :: ds' =>
      let arg := set_cell g r c d in
      let ev := Call depth entry (r, c) d g arg in
      match rec arg with
      | None => None
      | Some (true, g', evs) => Some (true, g', ev :: evs)
      | Some (false, g', evs) =>
          match try_digits_log rec depth entry r c ds' (set_cell g' r c 0) with
          | None => None
          | Some (b, g'', evs') => Some (b, g'', ev :: evs ++ evs')
          end
      end
  end.

Fixpoint solve_log (fuel depth : nat) (g : Grid)
  : option (bool * Grid * list call) :=
  match fuel with
  | O => None
  | S fuel' =>
      match find_mrv_cell g with
      | None => Some (true, g, [])
      | Some (r, c, cands) =>
          if decide (cands = ∅) then Some (false, g, [])
          else try_digits_log (solve_log fuel' (S depth)) (S depth) g r c
                              (sorted cands) g
      end
  end.

Definition forget_calls (res : bool * Grid * list call) : bool * Grid :=
  (res.1.1, res.1.2).

(** Every cell of the board holds a value from [0] to [9]. *)
Definition in_range (g : Grid) : Prop :=
  ∀ q, in_board q → 0 ≤ cell g q.1 q.2 ≤ 9.

(** No cell of the board is empty. *)
Definition full (g : Grid) : Prop :=
  ∀ q, in_board q → cell g q.1 q.2 ≠ 0.

(** A solved board: the nine values of every row, of every column and of
    every box are the digits 1 to 9, each once. *)
Definition solved (g : Grid) : Prop :=
  (∀ r, (r < 9)%nat → row g r ≡ₚ seqZ 1 9) ∧
  (∀ c, (c < 9)%nat → col_cells g c ≡ₚ seqZ 1 9) ∧
  (∀ i j, (i < 3)%nat → (j < 3)%nat →
          box_cells g (i * 3) (j * 3) ≡ₚ seqZ 1 9).

(** [s] is a completion of [g]: a solved board that agrees with every filled
    cell of [g]. *)
Definition completion (g s : Grid) : Prop :=
  wf_grid s ∧ solved s ∧
  ∀ q, in_board q → cell g q.1 q.2 ≠ 0 → cell s q.1 q.2 = cell g q.1 q.2.

(** [g'] comes from [g] by writing candidate digits into empty cells. *)
Inductive placed : Grid → Grid → Prop :=
  | placed_refl g : placed g g
  | placed_step g r c d g' :
      in_board (r, c) → cell g r c = 0 → d ∈ candidates g r c →
      placed (set_cell g r c d) g' → placed g g'.

(** What holds of a recorded call: the calling frame selected an empty cell
    of its board, the board is as it was on entry when the digit is written,
    the digit is a candidate of the cell, and the called frame gets the board
    with exactly this cell filled, so with one empty cell less. *)
Definition call_ok (e : call) : Prop :=
  wf_grid (call_entry e) ∧ in_board (call_cell e) ∧
  cell (call_entry e) (call_cell e).1 (call_cell e).2 = 0 ∧
  call_before e = call_entry e ∧
  call_digit e ∈ candidates (call_entry e) (call_cell e).1 (call_cell e).2 ∧
  call_arg e =
    set_cell (call_before e) (call_cell e).1 (call_cell e).2 (call_digit e) ∧
  count_empty (call_entry e) = S (count_empty (call_arg e)).

(** A recorded call made below a frame of depth [depth] entered with [g]. *)
Definition call_below (depth : nat) (g : Grid) (e : call) : Prop :=
  call_ok e ∧ (depth < call_depth e)%nat ∧
  (call_depth e + count_empty (call_arg e) ≤ depth + count_empty g)%nat.

(* ================================================================== *)
(** * Properties of the board operations *)

Section board.
Implicit Types (g : Grid) (r c : nat) (d v : Z).

Lemma wf_row_length g r : wf_grid g → (r < 9)%nat → length (row g r) = 9%nat.
Proof.
  intros [Hlen Hrows] Hr. unfold row.
  destruct (lookup_lt_is_Some_2 g r) as [x Hx]; [lia|].
  rewrite Hx. simpl. by eapply (Forall_lookup_1 _ _ _ _ Hrows Hx).
Qed.

Lemma row_lookup g r : wf_grid g → (r < 9)%nat → g !! r = Some (row g r).
Proof.
  intros [Hlen _] Hr. unfold row.
  destruct (lookup_lt_is_Some_2 g r) as [x Hx]; [lia|]. by rewrite Hx.
Qed.

Lemma cell_lookup g r c :
  wf_grid g → (r < 9)%nat → (c < 9)%nat → row g r !! c = Some (cell g r c).
Proof.
  intros Hwf Hr Hc. unfold cell.
  destruct (lookup_lt_is_Some_2 (row g r) c) as [x Hx].
  { rewrite wf_row_length; auto. }
  by rewrite Hx.
Qed.

(** On a well-formed board no access with indices from [range(9)] raises. *)
Lemma cell_checked_in_range g r c :
  wf_grid g → (r < 9)%nat → (c < 9)%nat →
  cell_checked g r c = Some (cell g r c).
Proof.
  intros Hwf Hr Hc. unfold cell_checked.
  rewrite (row_lookup g r) by done. simpl. by apply cell_lookup.
Qed.

Lemma wf_set_cell g r c d : wf_grid g → wf_grid (set_cell g r c d).
Proof.
  intros [Hlen Hrows]. split.
  - unfold set_cell. by rewrite length_alter.
  - apply Forall_lookup. intros i x Hi. unfold set_cell in Hi.
    destruct (decide (r = i)) as [->|Hne].
    + rewrite list_lookup_alter_eq in Hi.
      destruct (g !! i) as [y|] eqn:Hy; simplify_eq/=.
      rewrite length_insert. by eapply (Forall_lookup_1 _ _ _ _ Hrows Hy).
    + rewrite list_lookup_alter_ne in Hi by done.
      by eapply (Forall_lookup_1 _ _ _ _ Hrows Hi).
Qed.

Lemma row_set_cell_eq g r c d :
  wf_grid g → (r < 9)%nat → row (set_cell g r c d) r = <[c := d]> (row g r).
Proof.
  intros Hwf Hr. unfold row at 1, set_cell.
  rewrite list_lookup_alter_eq, (row_lookup g r) by done. done.
Qed.

Lemma row_set_cell_ne g r r' c d :
  r ≠ r' → row (set_cell g r c d) r' = row g r'.
Proof.
  intros Hne. unfold row, set_cell. by rewrite list_lookup_alter_ne.
Qed.

Lemma cell_set_cell_eq g r c d :
  wf_grid g → (r < 9)%nat → (c < 9)%nat → cell (set_cell g r c d) r c = d.
Proof.
  intros Hwf Hr Hc. unfold cell. rewrite row_set_cell_eq by done.
  rewrite list_lookup_insert_eq; [done|]. rewrite wf_row_length; auto.
Qed.

Lemma cell_set_cell_ne g r c d r' c' :
  wf_grid g → (r < 9)%nat → (r, c) ≠ (r', c') →
  cell (set_cell g r c d) r' c' = cell g r' c'.
Proof.
  intros Hwf Hr Hne. unfold cell.
  destruct (decide (r = r')) as [<-|Hr'].
  - rewrite row_set_cell_eq by done.
    rewrite list_lookup_insert_ne; [done|]. congruence.
  - by rewrite row_set_cell_ne.
Qed.

Lemma cell_set_cell g r c d r' c' :
  wf_grid g → (r < 9)%nat → (c < 9)%nat →
  cell (set_cell g r c d) r' c' =
    if decide ((r, c) = (r', c')) then d else cell g r' c'.
Proof.
  intros Hwf Hr Hc. case_decide as Heq.
  - injection Heq as <- <-. by apply cell_set_cell_eq.
  - by apply cell_set_cell_ne.
Qed.

(** Writing the value a cell already holds changes nothing. *)
Lemma set_cell_same g r c :
  wf_grid g → (r < 9)%nat → (c < 9)%nat → set_cell g r c (cell g r c) = g.
Proof.
  intros Hwf Hr Hc. unfold set_cell.
  apply list_eq. intros i. destruct (decide (r = i)) as [<-|Hne].
  - rewrite list_lookup_alter_eq, (row_lookup g r) by done. simpl.
    f_equal. apply list_insert_id. by apply cell_lookup.
  - by rewrite list_lookup_alter_ne.
Qed.

(** Assign then undo: the second write wins. *)
Lemma set_cell_twice g r c d d' :
  set_cell (set_cell g r c d) r c d' = set_cell g r c d'.
Proof.
  unfold set_cell. rewrite list_alter_alter_eq.
  apply list_alter_ext; [|done]. intros x _. simpl.
  apply list_insert_insert_eq.
Qed.

Lemma set_cell_undo g r c d :
  wf_grid g → (r < 9)%nat → (c < 9)%nat → cell g r c = 0 →
  set_cell (set_cell g r c d) r c 0 = g.
Proof.
  intros Hwf Hr Hc H0. rewrite set_cell_twice, <-H0. by apply set_cell_same.
Qed.
End board.

(* ================================================================== *)
(** * Units: rows, columns and boxes as lists of coordinates *)

Section units.
Implicit Types (g : Grid) (r c : nat) (p q : nat * nat).

Lemma elem_of_row_coords r p :
  p ∈ row_coords r ↔ p.1 = r ∧ (p.2 < 9)%nat.
Proof.
  unfold row_coords. rewrite list_elem_of_fmap. destruct p as [a b]. cbn [fst snd].
  split.
  - intros (x & [= -> ->] & Hx%elem_of_seq). lia.
  - intros [-> Hb]. exists b. split; [done|]. apply elem_of_seq. lia.
Qed.

Lemma elem_of_col_coords c p :
  p ∈ col_coords c ↔ p.2 = c ∧ (p.1 < 9)%nat.
Proof.
  unfold col_coords. rewrite list_elem_of_fmap. destruct p as [a b]. cbn [fst snd].
  split.
  - intros (x & [= -> ->] & Hx%elem_of_seq). lia.
  - intros [-> Hb]. exists a. split; [done|]. apply elem_of_seq. lia.
Qed.

Lemma elem_of_box_coords br bc p :
  p ∈ box_coords br bc ↔
    (br ≤ p.1 < br + 3)%nat ∧ (bc ≤ p.2 < bc + 3)%nat.
Proof.
  unfold box_coords. rewrite list_elem_of_bind. destruct p as [a b]. cbn [fst snd].
  split.
  - intros (x & (y & Hy & Hb%elem_of_seq)%list_elem_of_bind & Ha%elem_of_seq).
    apply list_elem_of_singleton in Hy as [= -> ->]. lia.
  - intros [Ha Hb]. exists a. split; [|apply elem_of_seq; lia].
    apply list_elem_of_bind. exists b. split; [|apply elem_of_seq; lia].
    by apply list_elem_of_singleton.
Qed.

Lemma elem_of_scan_order p : p ∈ scan_order ↔ in_board p.
Proof.
  unfold scan_order, in_board. rewrite list_elem_of_bind.
  destruct p as [a b]. cbn [fst snd]. split.
  - intros (x & (y & Hy & Hb%elem_of_seq)%list_elem_of_bind & Ha%elem_of_seq).
    apply list_elem_of_singleton in Hy as [= -> ->]. lia.
  - intros [Ha Hb]. exists a. split; [|apply elem_of_seq; lia].
    apply list_elem_of_bind. exists b. split; [|apply elem_of_seq; lia].
    by apply list_elem_of_singleton.
Qed.

Lemma NoDup_row_coords r : NoDup (row_coords r).
Proof.
  unfold row_coords. apply NoDup_fmap_2; [|apply NoDup_seq].
  by intros x y [= ->].
Qed.

Lemma NoDup_col_coords c : NoDup (col_coords c).
Proof.
  unfold col_coords. apply NoDup_fmap_2; [|apply NoDup_seq].
  by intros x y [= ->].
Qed.

Lemma NoDup_box_coords br bc : NoDup (box_coords br bc).
Proof.
  unfold box_coords. cbv. rewrite !NoDup_cons, !not_elem_of_cons.
  repeat split; try (intros [= ?]; lia); try apply not_elem_of_nil.
  apply NoDup_nil_2.
Qed.

Lemma NoDup_scan_order : NoDup scan_order.
Proof. apply (bool_decide_unpack _). vm_compute. exact I. Qed.

Lemma length_scan_order : length scan_order = 81%nat.
Proof. reflexivity. Qed.

(** The row object of a well-formed board lists its nine cells. *)
Lemma row_cells g r :
  wf_grid g → (r < 9)%nat → row g r = cells_at g (row_coords r).
Proof.
  intros Hwf Hr. apply list_eq_same_length with 9%nat.
  - done.
  - by apply wf_row_length.
  - intros i x y Hi Hx Hy.
    rewrite cell_lookup in Hx by done.
    unfold cells_at, row_coords in Hy.
    rewrite <-list_fmap_compose, list_lookup_fmap, lookup_seq_lt in Hy by done.
    simpl in Hy. congruence.
Qed.

Lemma col_cells_at g c : col_cells g c = cells_at g (col_coords c).
Proof. unfold col_cells, cells_at, col_coords. by rewrite <-list_fmap_compose. Qed.

Lemma box_cells_at g br bc : box_cells g br bc = cells_at g (box_coords br bc).
Proof. done. Qed.

Lemma elem_of_cells_at g cs v :
  v ∈ cells_at g cs ↔ ∃ p, p ∈ cs ∧ cell g p.1 p.2 = v.
Proof.
  unfold cells_at. rewrite list_elem_of_fmap. split.
  - intros (p & -> & Hp). by exists p.
  - intros (p & Hp & <-). by exists p.
Qed.

End units.

(* ================================================================== *)
(** * Consistency of a board *)

Section validator.
Implicit Types (g : Grid) (r c : nat) (p q : nat * nat) (l : list Z).

Lemma size_list_to_set_le l : (size (list_to_set l : gset Z) ≤ length l)%nat.
Proof.
  induction l as [|x l IH]; simpl.
  - done.
  - destruct (decide (x ∈ l)) as [Hin|Hout].
    + rewrite (subseteq_union_1_L {[x]} (list_to_set l : gset Z)); [lia|].
      by apply singleton_subseteq_l, elem_of_list_to_set.
    + rewrite size_union, size_singleton by set_solver. lia.
Qed.

Lemma all_distinct_NoDup l : all_distinct l = true ↔ NoDup l.
Proof.
  unfold all_distinct. rewrite bool_decide_eq_true. split.
  - induction l as [|x l IH]; simpl; intros Hsz; [constructor|].
    destruct (decide (x ∈ l)) as [Hin|Hout].
    + rewrite (subseteq_union_1_L {[x]} (list_to_set l : gset Z)) in Hsz
        by by apply singleton_subseteq_l, elem_of_list_to_set.
      pose proof (size_list_to_set_le l). lia.
    + rewrite size_union, size_singleton in Hsz by set_solver.
      constructor; [done|]. apply IH. lia.
  - intros Hnd. symmetry. by apply size_list_to_set.
Qed.

Lemma unit_distinct_cons g p cs :
  p ∉ cs →
  unit_distinct g (p :: cs) ↔
    (cell g p.1 p.2 ≠ 0 → ∀ q, q ∈ cs → cell g p.1 p.2 ≠ cell g q.1 q.2) ∧
    unit_distinct g cs.
Proof.
  intros Hp. unfold unit_distinct. split.
  - intros H. split.
    + intros Hnz q Hq. apply H; [left|by right| |done].
      intros ->. done.
    + intros a b Ha Hb. apply H; by right.
  - intros [H1 H2] a b Ha Hb Hne Hnz.
    apply elem_of_cons in Ha as [->|Ha]; apply elem_of_cons in Hb as [->|Hb].
    + done.
    + by apply H1.
    + intros Heq. destruct (decide (cell g p.1 p.2 = 0)) as [H0|H0].
      * congruence.
      * by apply (H1 H0 a Ha).
    + by apply H2.
Qed.

Lemma NoDup_filter_cells g cs :
  NoDup cs →
  NoDup (filter (λ v, v ≠ 0) (cells_at g cs)) ↔ unit_distinct g cs.
Proof.
  induction 1 as [|p cs Hp Hnd IH].
  - split; [|constructor]. intros _ a b Ha. by apply elem_of_nil in Ha.
  - rewrite unit_distinct_cons by done. unfold cells_at in *.
    rewrite fmap_cons, filter_cons. case_decide as Hnz.
    + rewrite NoDup_cons, IH, list_elem_of_filter, list_elem_of_fmap.
      split.
      * intros [Hout Hd]. split; [|done]. intros _ q Hq Heq.
        apply Hout. split; [done|]. by exists q.
      * intros [Hall Hd]. split; [|done]. intros [_ (q & Heq & Hq)].
        by apply (Hall Hnz q Hq).
    + rewrite IH. split; [intros Hd; split; [done|done]|by intros [_ Hd]].
Qed.

Lemma all_distinct_unit g cs :
  NoDup cs →
  all_distinct (filter (λ v, v ≠ 0) (cells_at g cs)) = true ↔
    unit_distinct g cs.
Proof. intros Hnd. by rewrite all_distinct_NoDup, NoDup_filter_cells. Qed.

Lemma rows_ok_spec g :
  wf_grid g →
  rows_ok g = true ↔ ∀ r, (r < 9)%nat → unit_distinct g (row_coords r).
Proof.
  intros Hwf. unfold rows_ok. rewrite forallb_forall. split.
  - intros H r Hr. apply all_distinct_unit; [apply NoDup_row_coords|].
    rewrite <-row_cells by done. apply H, list_elem_of_In, elem_of_seq. lia.
  - intros H r Hr%list_elem_of_In%elem_of_seq.
    rewrite row_cells by (done || lia).
    apply all_distinct_unit; [apply NoDup_row_coords|]. apply H. lia.
Qed.

Lemma cols_ok_spec g :
  cols_ok g = true ↔ ∀ c, (c < 9)%nat → unit_distinct g (col_coords c).
Proof.
  unfold cols_ok. rewrite forallb_forall. split.
  - intros H c Hc. apply all_distinct_unit; [apply NoDup_col_coords|].
    rewrite <-col_cells_at. apply H, list_elem_of_In, elem_of_seq. lia.
  - intros H c Hc%list_elem_of_In%elem_of_seq. rewrite col_cells_at.
    apply all_distinct_unit; [apply NoDup_col_coords|]. apply H. lia.
Qed.

Lemma elem_of_box_origins o :
  o ∈ box_origins ↔ ∃ i j, (i < 3)%nat ∧ (j < 3)%nat ∧ o = (i * 3, j * 3)%nat.
Proof.
  split.
  - intros Ho%list_elem_of_In. cbv in Ho.
    repeat (destruct Ho as [<-|Ho]); try done.
    + exists 0%nat, 0%nat. repeat split; lia.
    + exists 0%nat, 1%nat. repeat split; lia.
    + exists 0%nat, 2%nat. repeat split; lia.
    + exists 1%nat, 0%nat. repeat split; lia.
    + exists 1%nat, 1%nat. repeat split; lia.
    + exists 1%nat, 2%nat. repeat split; lia.
    + exists 2%nat, 0%nat. repeat split; lia.
    + exists 2%nat, 1%nat. repeat split; lia.
    + exists 2%nat, 2%nat. repeat split; lia.
  - intros (i & j & Hi & Hj & ->). apply list_elem_of_In.
    destruct i as [|[|[|i]]]; [| | |lia];
      (destruct j as [|[|[|j]]]; [| | |lia]); cbv; tauto.
Qed.

Lemma boxes_ok_spec g :
  boxes_ok g = true ↔
    ∀ i j, (i < 3)%nat → (j < 3)%nat →
           unit_distinct g (box_coords (i * 3) (j * 3)).
Proof.
  unfold boxes_ok. rewrite forallb_forall. split.
  - intros H i j Hi Hj. apply all_distinct_unit; [apply NoDup_box_coords|].
    rewrite <-box_cells_at.
    apply (H (i * 3, j * 3)%nat), list_elem_of_In, elem_of_box_origins.
    by exists i, j.
  - intros H o (i & j & Hi & Hj & ->)%list_elem_of_In%elem_of_box_origins.
    cbn [fst snd]. rewrite box_cells_at.
    apply all_distinct_unit; [apply NoDup_box_coords|]. by apply H.
Qed.

(** Consistency, unit by unit. *)
Lemma consistent_units g :
  consistent g ↔
    (∀ r, (r < 9)%nat → unit_distinct g (row_coords r)) ∧
    (∀ c, (c < 9)%nat → unit_distinct g (col_coords c)) ∧
    (∀ i j, (i < 3)%nat → (j < 3)%nat →
            unit_distinct g (box_coords (i * 3) (j * 3))).
Proof.
  split.
  - intros H. repeat split.
    + intros r Hr p q [Hp1 Hp2]%elem_of_row_coords [Hq1 Hq2]%elem_of_row_coords
        Hne.
      apply H; [split; lia|split; lia|done|]. left. unfold same_row. lia.
    + intros c Hc p q [Hp1 Hp2]%elem_of_col_coords [Hq1 Hq2]%elem_of_col_coords
        Hne.
      apply H; [split; lia|split; lia|done|]. right; left. unfold same_col. lia.
    + intros i j Hi Hj p q [Hp1 Hp2]%elem_of_box_coords
        [Hq1 Hq2]%elem_of_box_coords Hne.
      apply H; [split; lia|split; lia|done|]. right; right. split; div_lia.
  - intros (Hr & Hc & Hb) p q [Hp1 Hp2] [Hq1 Hq2] Hne [Hs|[Hs|[Hs1 Hs2]]] Hnz.
    + apply (Hr p.1 Hp1); [| |done|done]; apply elem_of_row_coords; done.
    + apply (Hc p.2 Hp2); [| |done|done]; apply elem_of_col_coords; done.
    + apply (Hb (p.1 / 3) (p.2 / 3))%nat; [div_lia|div_lia| | |done|done];
        apply elem_of_box_coords; div_lia.
Qed.

(** The validator accepts exactly the consistent boards. *)
Lemma is_valid_grid_consistent g :
  wf_grid g → is_valid_grid g = true ↔ consistent g.
Proof.
  intros Hwf. unfold is_valid_grid.
  rewrite !andb_true_iff, rows_ok_spec, cols_ok_spec, boxes_ok_spec by done.
  rewrite consistent_units. tauto.
Qed.

Lemma consistent_no_duplicate g : consistent g ↔ ¬ has_duplicate g.
Proof.
  split.
  - intros H [(p & q & Hs & Hc)|[(p & q & Hs & Hc)|(p & q & Hs & Hc)]];
      destruct Hc as (Hp & Hq & Hne & Hnz & Heq);
      apply (H p q); unfold peers; auto.
  - intros H p q Hp Hq Hne Hpe Hnz Heq. apply H.
    destruct Hpe as [Hs|[Hs|Hs]]; [left|right; left|right; right];
      exists p, q; (split; [done|]); repeat split; try done; apply Hp || apply Hq.
Qed.

End validator.

(* ================================================================== *)
(** * The candidate engine *)

Section candidates.
Implicit Types (g : Grid) (r c : nat) (p q : nat * nat) (d : Z).

Lemma elem_of_unit_vals g cs d :
  d ∈ (list_to_set (cells_at g cs) ∖ {[0]} : gset Z) ↔
    d ≠ 0 ∧ ∃ q, q ∈ cs ∧ cell g q.1 q.2 = d.
Proof.
  rewrite elem_of_difference, elem_of_list_to_set, elem_of_cells_at,
    elem_of_singleton. tauto.
Qed.

Lemma elem_of_row_vals g r c d :
  wf_grid g → (r < 9)%nat →
  d ∈ row_vals g r ↔ used_in g (same_row (r, c)) d.
Proof.
  intros Hwf Hr. unfold row_vals, used_in, same_row, in_board.
  rewrite row_cells, elem_of_unit_vals by done.
  split.
  - intros [Hnz (q & Hq%elem_of_row_coords & Hv)]. split; [done|].
    exists q. cbn [fst]. intuition lia.
  - intros [Hnz (q & Hq & Hs & Hv)]. split; [done|].
    exists q. split; [|done]. apply elem_of_row_coords.
    cbn [fst] in Hs. intuition lia.
Qed.

Lemma elem_of_col_vals g r c d :
  (c < 9)%nat →
  d ∈ col_vals g c ↔ used_in g (same_col (r, c)) d.
Proof.
  intros Hc. unfold col_vals, used_in, same_col, in_board.
  rewrite col_cells_at, elem_of_unit_vals.
  split.
  - intros [Hnz (q & Hq%elem_of_col_coords & Hv)]. split; [done|].
    exists q. cbn [snd]. intuition lia.
  - intros [Hnz (q & Hq & Hs & Hv)]. split; [done|].
    exists q. split; [|done]. apply elem_of_col_coords.
    cbn [snd] in Hs. intuition lia.
Qed.

Lemma elem_of_box_vals g r c d :
  (r < 9)%nat → (c < 9)%nat →
  d ∈ box_vals g r c ↔ used_in g (same_box (r, c)) d.
Proof.
  intros Hr Hc. unfold box_vals, used_in, same_box, in_board.
  rewrite box_cells_at, elem_of_unit_vals.
  split.
  - intros [Hnz (q & Hq%elem_of_box_coords & Hv)]. split; [done|].
    exists q. cbn [fst snd]. repeat split; [div_lia..|done].
  - intros [Hnz (q & Hq & [Hs1 Hs2] & Hv)]. split; [done|].
    exists q. split; [|done]. apply elem_of_box_coords.
    cbn [fst snd] in Hs1, Hs2. split; div_lia.
Qed.

Lemma elem_of_candidates g r c d :
  d ∈ candidates g r c ↔
    cell g r c = 0 ∧ 1 ≤ d ≤ 9 ∧
    (d ∉ row_vals g r) ∧ (d ∉ col_vals g c) ∧ (d ∉ box_vals g r c).
Proof.
  unfold candidates. case_decide as Hnz.
  - rewrite elem_of_empty. tauto.
  - cbn zeta.
    rewrite elem_of_list_to_set, list_elem_of_filter, elem_of_seqZ,
      !not_elem_of_union.
    intuition lia.
Qed.

Lemma candidates_filled g r c : cell g r c ≠ 0 → candidates g r c = ∅.
Proof. intros Hnz. unfold candidates. by rewrite decide_True. Qed.

(** The candidates of an empty cell, told from the cells that constrain it. *)
Lemma elem_of_candidates_peers g r c d :
  wf_grid g → (r < 9)%nat → (c < 9)%nat →
  d ∈ candidates g r c ↔
    cell g r c = 0 ∧ 1 ≤ d ≤ 9 ∧
    ∀ q, in_board q → peers (r, c) q → cell g q.1 q.2 ≠ d.
Proof.
  intros Hwf Hr Hc.
  rewrite elem_of_candidates, (elem_of_row_vals g r c),
    (elem_of_col_vals g r c), (elem_of_box_vals g r c) by done.
  unfold used_in, peers. split.
  - intros (H0 & Hd & Hrow & Hcol & Hbox). split; [done|]. split; [done|].
    intros q Hq [Hs|[Hs|Hs]] Hv.
    + apply Hrow. split; [lia|]. by exists q.
    + apply Hcol. split; [lia|]. by exists q.
    + apply Hbox. split; [lia|]. by exists q.
  - intros (H0 & Hd & Hall). split; [done|]. split; [done|].
    repeat split; intros [_ (q & Hq & Hs & Hv)]; apply (Hall q Hq); auto.
Qed.

End candidates.

(* ================================================================== *)
(** * The MRV selector *)

Section selector.
Implicit Types (g : Grid) (p q : nat * nat) (cs log : list (nat * nat)).
Implicit Types (best res : option (nat * nat * gset Z)).

Lemma mrv_scan_log_erase g cs best log :
  (mrv_scan_log g cs best log).1 = mrv_scan g cs best.
Proof.
  revert best log. induction cs as [|[r c] cs IH]; intros best log; [done|].
  simpl. repeat case_decide; try done; destruct best as [[??]|];
    try case_bool_decide; simpl; auto.
Qed.

Lemma lookup_scan_order i p :
  scan_order !! i = Some p ↔ in_board p ∧ i = scan_index p.
Proof.
  assert (scan_order = (λ k, (k / 9, k mod 9)%nat) <$> seq 0 81) as ->
    by reflexivity.
  rewrite list_lookup_fmap. unfold in_board, scan_index.
  destruct p as [a b]. cbn [fst snd]. split.
  - intros H. destruct (seq 0 81 !! i) as [k|] eqn:Hk; [|done].
    apply lookup_seq in Hk as [-> Hi]. cbn [fmap option_fmap option_map] in H.
    rewrite Nat.add_0_l in H.
    assert (a = Nat.div i 9 ∧ b = Nat.modulo i 9) as [-> ->]
      by (split; congruence).
    pose proof (Nat.div_mod_eq i 9). pose proof (Nat.mod_upper_bound i 9).
    lia.
  - intros [[Ha Hb] ->]. rewrite lookup_seq_lt by lia.
    cbn [fmap option_fmap option_map]. rewrite Nat.add_0_l. f_equal.
    assert (((9 * a + b) / 9 = a)%nat ∧ ((9 * a + b) mod 9 = b)%nat) as [-> ->];
      [|done].
    pose proof (Nat.div_mod_eq (9 * a + b) 9).
    pose proof (Nat.mod_upper_bound (9 * a + b) 9). lia.
Qed.

Lemma size_gset_pos (s : gset Z) : s ≠ ∅ → size s ≠ 0%nat.
Proof. intros Hne Hsz. by apply size_empty_inv, leibniz_equiv in Hsz. Qed.

Lemma mrv_scan_log_post g cs done best log :
  scan_inv g done best log →
  scan_post g (done ++ cs) (mrv_scan_log g cs best log).1
            (mrv_scan_log g cs best log).2.
Proof.
  revert done best log.
  induction cs as [|[r c] cs IH]; intros done best log (Hall & Hlog & Hbest).
  - rewrite app_nil_r. simpl. destruct best as [[[r c] bc]|]; simpl.
    + destruct Hbest as (-> & Hin & i & Hi & Hmin).
      split; [done|]. split; [by apply (Hlog _ Hin)|]. split; [done|].
      exists i. split; [done|]. split.
      { intros j q Hj Hq0 _. apply Hall; [|done].
        by apply (list_elem_of_lookup_2 _ j). }
      intros q Hq.
      split; [by apply (Hlog _ Hq)|]. by apply Hmin.
    + split; [done|]. intros q Hq H0. specialize (Hall q Hq H0).
      rewrite Hbest in Hall. by apply elem_of_nil in Hall.
  - assert (done ++ (r, c) :: cs = (done ++ [(r, c)]) ++ cs) as ->
      by by rewrite <-app_assoc.
    assert (∀ q j, done !! j = Some q → (done ++ [(r, c)]) !! j = Some q)
      as Hext by (intros q j Hj; by apply lookup_app_l_Some).
    assert ((done ++ [(r, c)]) !! length done = Some (r, c)) as Hhere
      by (rewrite lookup_app_r, Nat.sub_diag by lia; done).
    assert (∀ q j, (done ++ [(r, c)]) !! j = Some q →
                   ((done ++ [(r, c)]) ++ cs) !! j = Some q)
      as Hfull by (intros q j Hj; by apply lookup_app_l_Some).
    cbn [mrv_scan_log]. destruct (decide (cell g r c = 0)) as [H0|Hnz].
    2:{ apply IH. split; [|split].
        - intros q [Hq|Hq%list_elem_of_singleton]%elem_of_app Hq0; [auto|].
          subst q. done.
        - intros q Hq. destruct (Hlog q Hq) as (? & ? & ?).
          split; [done|]. split; [done|]. apply elem_of_app. by left.
        - destruct best as [[[br bcol] bc]|]; [|done].
          destruct Hbest as (-> & Hin & i & Hi & Hmin).
          split; [done|]. split; [done|]. exists i. split; [by apply Hext|].
          intros q Hq. destruct (Hmin q Hq) as [Hle Heq]. split; [done|].
          intros Hsz. destruct (Heq Hsz) as (j & Hj & Hij).
          exists j. split; [by apply Hext|done]. }
    assert (∀ q, q ∈ done ++ [(r, c)] → cell g q.1 q.2 = 0 →
                 q ∈ log ++ [(r, c)]) as Hall'.
    { intros q [Hq|Hq%list_elem_of_singleton]%elem_of_app Hq0;
        apply elem_of_app; [left; auto|right].
      subst q. by apply list_elem_of_singleton. }
    destruct (decide (candidates g r c = ∅)) as [Hemp|Hne].
    { (* dead end: return at once *)
      unfold scan_post. cbn [fst snd]. rewrite Hemp.
      split; [done|]. split; [done|].
      split; [apply elem_of_app; right; by apply list_elem_of_singleton|].
      exists (length done). split; [by apply Hfull|]. split.
      { intros j q Hj Hq0 [Hji|Hsz]; [|rewrite size_empty in Hsz; lia].
        apply Hall'; [|done]. apply (list_elem_of_lookup_2 _ j).
        rewrite lookup_app_l in Hj; [done|]. rewrite length_app. simpl. lia. }
      intros q [Hq|Hq%list_elem_of_singleton]%elem_of_app.
      - destruct (Hlog q Hq) as (Hsz & Hq0 & _). split; [done|].
        rewrite size_empty. split; [lia|]. lia.
      - subst q. split; [done|]. rewrite size_empty. split; [lia|].
        intros _. exists (length done). split; [by apply Hfull|lia]. }
    pose proof (size_gset_pos _ Hne) as Hpos.
    assert (∀ q, q ∈ log → (2 ≤ cand_size g q)%nat ∧ cell g q.1 q.2 = 0 ∧
                              q ∈ done ++ [(r, c)]) as Hlog_old.
    { intros q Hq. destruct (Hlog q Hq) as (? & ? & ?).
      split; [done|]. split; [done|]. apply elem_of_app. by left. }
    destruct (match best with
              | Some (_, best_cands) =>
                  bool_decide (size (candidates g r c) < size best_cands)%nat
              | None => true
              end) eqn:Hupd.
    + destruct (decide (size (candidates g r c) = 1%nat)) as [Hone|Hmany].
      { (* a single candidate: return at once *)
        unfold scan_post. cbn [fst snd]. split; [done|]. split; [done|].
        split; [apply elem_of_app; right; by apply list_elem_of_singleton|].
        exists (length done). split; [by apply Hfull|]. split.
        { intros j q Hj Hq0 [Hji|Hsz]; [|lia].
          apply Hall'; [|done]. apply (list_elem_of_lookup_2 _ j).
          rewrite lookup_app_l in Hj; [done|]. rewrite length_app. simpl. lia. }
        intros q [Hq|Hq%list_elem_of_singleton]%elem_of_app.
        - destruct (Hlog q Hq) as (Hsz & Hq0 & _). split; [done|].
          split; lia.
        - subst q. split; [done|]. unfold cand_size. cbn [fst snd].
          split; [lia|]. intros _. exists (length done).
          split; [by apply Hfull|lia]. }
      apply IH. split; [done|]. split.
      { intros q [Hq|Hq%list_elem_of_singleton]%elem_of_app; [auto|].
        subst q. unfold cand_size. cbn [fst snd]. split; [lia|].
        split; [done|]. apply elem_of_app. right.
        by apply list_elem_of_singleton. }
      split; [done|].
      split; [apply elem_of_app; right; by apply list_elem_of_singleton|].
      exists (length done). split; [done|].
      intros q [Hq|Hq%list_elem_of_singleton]%elem_of_app.
      * destruct best as [[[br bcol] bc]|].
        -- apply bool_decide_eq_true in Hupd.
           destruct Hbest as (-> & Hin & i & Hi & Hmin).
           destruct (Hmin q Hq) as [Hle _]. split; lia.
        -- rewrite Hbest in Hq. by apply elem_of_nil in Hq.
      * subst q. unfold cand_size. cbn [fst snd]. split; [lia|].
        intros _. exists (length done). split; [done|lia].
    + destruct best as [[[br bcol] bc]|]; [|done].
      apply bool_decide_eq_false in Hupd.
      destruct Hbest as (-> & Hin & i & Hi & Hmin).
      apply IH. split; [done|]. split.
      { intros q [Hq|Hq%list_elem_of_singleton]%elem_of_app; [auto|].
        subst q. unfold cand_size. cbn [fst snd].
        destruct (Hlog _ Hin) as [Hb _]. unfold cand_size in Hb.
        cbn [fst snd] in Hb. split; [lia|].
        split; [done|]. apply elem_of_app. right.
        by apply list_elem_of_singleton. }
      split; [done|]. split; [apply elem_of_app; by left|].
      exists i. split; [by apply Hext|].
      intros q [Hq|Hq%list_elem_of_singleton]%elem_of_app.
      * destruct (Hmin q Hq) as [Hle Heq]. split; [done|].
        intros Hsz. destruct (Heq Hsz) as (j & Hj & Hij).
        exists j. split; [by apply Hext|done].
      * subst q. unfold cand_size. cbn [fst snd]. split; [lia|].
        intros _. exists (length done). split; [done|].
        apply lookup_lt_Some in Hi. lia.
Qed.

End selector.

Section selector_facts.
Implicit Types (g : Grid) (p q : nat * nat).

Lemma find_mrv_cell_log g :
  find_mrv_cell g = (mrv_scan_log g scan_order None []).1.
Proof. unfold find_mrv_cell. by rewrite mrv_scan_log_erase. Qed.

Lemma find_mrv_cell_post g :
  scan_post g scan_order (find_mrv_cell g) (scanned g).
Proof.
  rewrite find_mrv_cell_log. unfold scanned.
  apply (mrv_scan_log_post g scan_order [] None []).
  split; [|split]; [intros q Hq|intros q Hq|done]; by apply elem_of_nil in Hq.
Qed.

(** The selected cell is an empty cell of the board, returned with its
    candidate set. *)
Lemma find_mrv_cell_Some g r c cands :
  find_mrv_cell g = Some (r, c, cands) →
  in_board (r, c) ∧ cell g r c = 0 ∧ cands = candidates g r c.
Proof.
  intros Hf. pose proof (find_mrv_cell_post g) as Hp. rewrite Hf in Hp.
  destruct Hp as (Hc & H0 & _ & i & Hi & _ & _).
  apply lookup_scan_order in Hi as [Hb _]. done.
Qed.

(** No cell is selected only when no cell of the board is empty. *)
Lemma find_mrv_cell_None g :
  find_mrv_cell g = None → ∀ q, in_board q → cell g q.1 q.2 ≠ 0.
Proof.
  intros Hf. pose proof (find_mrv_cell_post g) as Hp. rewrite Hf in Hp.
  destruct Hp as [_ Hall]. intros q Hq. by apply Hall, elem_of_scan_order.
Qed.

End selector_facts.

(* ================================================================== *)
(** * Counting empty cells *)

Section counting.
Implicit Types (g : Grid) (p q : nat * nat).

Lemma filter_agree {A} (P Q : A → Prop)
    `{!∀ x, Decision (P x)} `{!∀ x, Decision (Q x)} (l : list A) :
  (∀ y, y ∈ l → P y ↔ Q y) → filter P l = filter Q l.
Proof.
  induction l as [|y l IH]; intros Hsame; [done|].
  rewrite !filter_cons.
  rewrite IH by (intros z Hz; apply Hsame; by right).
  pose proof (Hsame y ltac:(by left)).
  destruct (decide (P y)), (decide (Q y)); tauto.
Qed.

Lemma filter_length_flip {A} `{!EqDecision A} (P Q : A → Prop)
    `{!∀ x, Decision (P x)} `{!∀ x, Decision (Q x)} (l : list A) (x : A) :
  NoDup l → x ∈ l → P x → ¬ Q x → (∀ y, y ≠ x → P y ↔ Q y) →
  length (filter P l) = S (length (filter Q l)).
Proof.
  intros Hnd Hx HP HQ Hsame. induction Hnd as [|y l Hy Hnd IH].
  - by apply elem_of_nil in Hx.
  - rewrite !filter_cons. destruct (decide (y = x)) as [->|Hne].
    + rewrite decide_True, decide_False by done. simpl. f_equal.
      f_equal. apply filter_agree.
      intros z Hz. apply Hsame. intros ->. done.
    + apply elem_of_cons in Hx as [Hx|Hx]; [congruence|].
      specialize (IH Hx). specialize (Hsame y Hne).
      destruct (decide (P y)), (decide (Q y)); simpl; try tauto; by rewrite IH.
Qed.

Lemma count_empty_le g : (count_empty g ≤ 81)%nat.
Proof.
  unfold count_empty. rewrite <-length_scan_order. apply length_filter.
Qed.

(** Filling an empty cell leaves one empty cell less. *)
Lemma count_empty_set_cell g r c d :
  wf_grid g → in_board (r, c) → cell g r c = 0 → d ≠ 0 →
  count_empty g = S (count_empty (set_cell g r c d)).
Proof.
  intros Hwf [Hr Hc] H0 Hd. unfold count_empty. cbn [fst snd] in *.
  apply (filter_length_flip _ _ _ (r, c)).
  - apply NoDup_scan_order.
  - by apply elem_of_scan_order.
  - done.
  - cbn [fst snd]. by rewrite cell_set_cell_eq.
  - intros [a b] Hne. cbn [fst snd]. by rewrite cell_set_cell_ne.
Qed.

End counting.

(* ================================================================== *)
(** * The backtracking search *)

Section loop.
(** The loop of [solve] over a recursive call [rec] that restores the board
    whenever it fails. *)
Variable rec : Grid → option (bool * Grid).
Variables (r c : nat).
Hypothesis Hr : (r < 9)%nat.
Hypothesis Hc : (c < 9)%nat.

Lemma try_digits_result ds g b g' :
  wf_grid g → cell g r c = 0 →
  (∀ d g1, d ∈ ds → rec (set_cell g r c d) = Some (false, g1) →
           g1 = set_cell g r c d) →
  try_digits rec r c ds g = Some (b, g') →
  (b = false ∧ g' = g) ∨
  (b = true ∧ ∃ d, d ∈ ds ∧ rec (set_cell g r c d) = Some (true, g')).
Proof.
  intros Hwf H0. induction ds as [|d ds IH]; intros Hrec Hres; simpl in Hres.
  - left. by injection Hres as <- <-.
  - destruct (rec (set_cell g r c d)) as [[[] g1]|] eqn:Hd; [| |done].
    + injection Hres as <- <-. right. split; [done|]. exists d.
      split; [by left|done].
    + rewrite (Hrec d g1) in Hres by (done || by left).
      rewrite set_cell_undo in Hres by done.
      destruct IH as [?|(-> & d' & Hd' & Hres')]; [|done|by left|].
      { intros d' g2 Hd'. apply Hrec. by right. }
      right. split; [done|]. exists d'. split; [by right|done].
Qed.

Lemma try_digits_is_Some ds g :
  wf_grid g → cell g r c = 0 →
  (∀ d g1, d ∈ ds → rec (set_cell g r c d) = Some (false, g1) →
           g1 = set_cell g r c d) →
  (∀ d, d ∈ ds → is_Some (rec (set_cell g r c d))) →
  is_Some (try_digits rec r c ds g).
Proof.
  intros Hwf H0. induction ds as [|d ds IH]; intros Hrec Hsome; simpl.
  - by eexists.
  - destruct (Hsome d) as [[[] g1] Hd]; [by left| |]; rewrite Hd.
    + by eexists.
    + rewrite (Hrec d g1) by (done || by left).
      rewrite set_cell_undo by done. apply IH.
      * intros d' g2 Hd'. apply Hrec. by right.
      * intros d' Hd'. apply Hsome. by right.
Qed.

Lemma try_digits_true ds g d0 g0 :
  wf_grid g → cell g r c = 0 →
  (∀ d g1, d ∈ ds → rec (set_cell g r c d) = Some (false, g1) →
           g1 = set_cell g r c d) →
  (∀ d, d ∈ ds → is_Some (rec (set_cell g r c d))) →
  d0 ∈ ds → rec (set_cell g r c d0) = Some (true, g0) →
  ∃ g', try_digits rec r c ds g = Some (true, g').
Proof.
  intros Hwf H0. induction ds as [|d ds IH]; intros Hrec Hsome Hd0 Hg0.
  - by apply elem_of_nil in Hd0.
  - simpl. destruct (Hsome d) as [[[] g1] Hd]; [by left| |]; rewrite Hd.
    + by eexists.
    + rewrite (Hrec d g1) by (done || by left).
      rewrite set_cell_undo by done. apply IH.
      * intros d' g2 Hd'. apply Hrec. by right.
      * intros d' Hd'. apply Hsome. by right.
      * apply elem_of_cons in Hd0 as [->|Hd0]; [congruence|done].
      * done.
Qed.

End loop.

Section search.
Implicit Types (g s : Grid) (r c n : nat) (p q : nat * nat) (d : Z).

Lemma elem_of_sorted (cands : gset Z) d : d ∈ sorted cands ↔ d ∈ cands.
Proof. unfold sorted. by rewrite merge_sort_Permutation, elem_of_elements. Qed.

(** Restoration: a failed search hands the board back as it got it. *)
Lemma solve_fuel_restores n g g' :
  wf_grid g → solve_fuel n g = Some (false, g') → g' = g.
Proof.
  revert g g'. induction n as [|n IH]; intros g g' Hwf Hs; [done|].
  simpl in Hs. destruct (find_mrv_cell g) as [[[r c] cands]|] eqn:Hf; [|done].
  destruct (find_mrv_cell_Some _ _ _ _ Hf) as ([Hr Hc] & H0 & ->).
  case_decide; [by injection Hs|].
  apply try_digits_result in Hs as [[_ ->]|[? _]]; try done.
  intros d g1 _ Hd. apply IH; [by apply wf_set_cell|done].
Qed.

(** A successful search got its board by legal placements, and left no
    empty cell. *)
Lemma solve_fuel_true n g g' :
  wf_grid g → solve_fuel n g = Some (true, g') →
  placed g g' ∧ find_mrv_cell g' = None.
Proof.
  revert g g'. induction n as [|n IH]; intros g g' Hwf Hs; [done|].
  simpl in Hs. destruct (find_mrv_cell g) as [[[r c] cands]|] eqn:Hf.
  2:{ injection Hs as <-. split; [constructor|done]. }
  destruct (find_mrv_cell_Some _ _ _ _ Hf) as ([Hr Hc] & H0 & ->).
  case_decide; [done|].
  apply try_digits_result in Hs as [[? _]|(_ & d & Hd & Hs)]; try done.
  2:{ intros d g1 _ Hd. apply (solve_fuel_restores n); [|done].
      by apply wf_set_cell. }
  apply IH in Hs as [Hpl Hnone]; [|by apply wf_set_cell].
  split; [|done]. apply (placed_step g r c d); try done.
  by apply elem_of_sorted.
Qed.

(** Termination: one nested call per empty cell, plus one, is enough. *)
Lemma solve_fuel_is_Some n g :
  wf_grid g → (count_empty g < n)%nat → is_Some (solve_fuel n g).
Proof.
  revert g. induction n as [|n IH]; intros g Hwf Hn; [lia|].
  simpl. destruct (find_mrv_cell g) as [[[r c] cands]|] eqn:Hf; [|by eexists].
  destruct (find_mrv_cell_Some _ _ _ _ Hf) as ([Hr Hc] & H0 & ->).
  case_decide; [by eexists|].
  apply try_digits_is_Some; try done.
  - intros d g1 _ Hd. apply (solve_fuel_restores n); [|done].
    by apply wf_set_cell.
  - intros d Hd%elem_of_sorted%elem_of_candidates. apply IH.
    + by apply wf_set_cell.
    + rewrite (count_empty_set_cell g r c d) in Hn; [lia|done|done|done|lia].
Qed.

Lemma try_digits_mono (rec1 rec2 : Grid → option (bool * Grid)) r c ds g res :
  (∀ g1 res1, rec1 g1 = Some res1 → rec2 g1 = Some res1) →
  try_digits rec1 r c ds g = Some res → try_digits rec2 r c ds g = Some res.
Proof.
  intros Hrec. revert g. induction ds as [|d ds IH]; intros g Hres; [done|].
  simpl in *. destruct (rec1 (set_cell g r c d)) as [[[] g1]|] eqn:Hd; [| |done].
  - by rewrite (Hrec _ _ Hd).
  - rewrite (Hrec _ _ Hd). by apply IH.
Qed.

(** More fuel never changes an answer. *)
Lemma solve_fuel_mono n m g res :
  (n ≤ m)%nat → solve_fuel n g = Some res → solve_fuel m g = Some res.
Proof.
  revert m g res. induction n as [|n IH]; intros m g res Hnm Hs; [done|].
  destruct m as [|m]; [lia|]. simpl in *.
  destruct (find_mrv_cell g) as [[[r c] cands]|]; [|done].
  case_decide; [done|].
  eapply try_digits_mono; [|done]. intros g1 res1. apply IH. lia.
Qed.

Lemma peers_sym p q : peers p q → peers q p.
Proof. unfold peers, same_row, same_col, same_box. intuition. Qed.

(** Writing a candidate keeps the board consistent. *)
Lemma consistent_set_cell g r c d :
  wf_grid g → in_board (r, c) → d ∈ candidates g r c →
  consistent g → consistent (set_cell g r c d).
Proof.
  intros Hwf [Hr Hc] Hd Hcon p q Hp Hq Hne Hpe.
  apply elem_of_candidates_peers in Hd as (H0 & Hrange & Hfree); try done.
  cbn [fst snd] in Hr, Hc. rewrite !cell_set_cell by done.
  destruct p as [pr pc], q as [qr qc]. cbn [fst snd].
  repeat case_decide; simplify_eq.
  - intros _ Heq. by apply (Hfree (qr, qc) Hq Hpe).
  - intros _ Heq. by apply (Hfree (pr, pc) Hp (peers_sym _ _ Hpe)).
  - by apply (Hcon (pr, pc) (qr, qc)).
Qed.

Lemma in_range_set_cell g r c d :
  wf_grid g → in_board (r, c) → d ∈ candidates g r c →
  in_range g → in_range (set_cell g r c d).
Proof.
  intros Hwf [Hr Hc] Hd%elem_of_candidates Hran q Hq.
  cbn [fst snd] in Hr, Hc. rewrite cell_set_cell by done.
  case_decide; [lia|by apply Hran].
Qed.

Lemma placed_wf g g' : placed g g' → wf_grid g → wf_grid g'.
Proof. induction 1; auto using wf_set_cell. Qed.

(** Placements never touch a filled cell. *)
Lemma placed_clues g g' :
  placed g g' → wf_grid g →
  ∀ q, in_board q → cell g q.1 q.2 ≠ 0 → cell g' q.1 q.2 = cell g q.1 q.2.
Proof.
  induction 1 as [|g r c d g' [Hr Hc] H0 Hd Hpl IH]; intros Hwf q Hq Hnz; [done|].
  cbn [fst snd] in Hr, Hc.
  assert ((r, c) ≠ (q.1, q.2)) as Hne by (intros [= -> ->]; done).
  rewrite IH; [by apply cell_set_cell_ne|by apply wf_set_cell|done|].
  by rewrite cell_set_cell_ne.
Qed.

Lemma placed_consistent g g' :
  placed g g' → wf_grid g → consistent g → consistent g'.
Proof.
  induction 1; intros Hwf Hcon; [done|].
  auto using wf_set_cell, consistent_set_cell.
Qed.

Lemma placed_in_range g g' :
  placed g g' → wf_grid g → in_range g → in_range g'.
Proof.
  induction 1; intros Hwf Hran; [done|].
  auto using wf_set_cell, in_range_set_cell.
Qed.

End search.

(* ================================================================== *)
(** * Solved boards and completions *)

Section solved.
Implicit Types (g s : Grid) (r c n : nat) (p q : nat * nat) (d : Z).

Lemma filter_all {A} (P : A → Prop) `{!∀ x, Decision (P x)} (l : list A) :
  Forall P l → filter P l = l.
Proof.
  induction 1 as [|x l Hx Hl IH]; [done|].
  by rewrite filter_cons, decide_True, IH.
Qed.

(** Nine distinct digits are the digits 1 to 9. *)
Lemma unit_perm g cs :
  NoDup cs → length cs = 9%nat → (∀ q, q ∈ cs → in_board q) →
  in_range g → full g → unit_distinct g cs →
  cells_at g cs ≡ₚ seqZ 1 9.
Proof.
  intros Hnd Hlen Hin Hran Hfull Hdis.
  apply submseteq_length_Permutation.
  - apply NoDup_submseteq.
    + rewrite <-(filter_all (λ v, v ≠ 0)); [by apply NoDup_filter_cells|].
      apply Forall_forall. intros v (q & Hq & <-)%elem_of_cells_at.
      by apply Hfull, Hin.
    + intros v (q & Hq & <-)%elem_of_cells_at. apply elem_of_seqZ.
      pose proof (Hran q (Hin q Hq)). pose proof (Hfull q (Hin q Hq)). lia.
  - unfold cells_at. by rewrite length_fmap, Hlen.
Qed.

Lemma unit_perm_inv g cs :
  NoDup cs → cells_at g cs ≡ₚ seqZ 1 9 →
  unit_distinct g cs ∧ ∀ q, q ∈ cs → 1 ≤ cell g q.1 q.2 ≤ 9.
Proof.
  intros Hnd Hperm. split.
  - apply NoDup_filter_cells; [done|]. apply NoDup_filter.
    rewrite Hperm. apply NoDup_seqZ.
  - intros q Hq.
    assert (cell g q.1 q.2 ∈ seqZ 1 9) as Hin%elem_of_seqZ; [|lia].
    rewrite <-Hperm. apply elem_of_cells_at. by exists q.
Qed.

Lemma solved_intro g :
  wf_grid g → consistent g → in_range g → full g → solved g.
Proof.
  intros Hwf (Hr & Hc & Hb)%consistent_units Hran Hfull. repeat split.
  - intros r Hr'. rewrite row_cells by done.
    apply unit_perm; auto using NoDup_row_coords.
    intros q [Hq1 Hq2]%elem_of_row_coords. split; lia.
  - intros c Hc'. rewrite col_cells_at.
    apply unit_perm; auto using NoDup_col_coords.
    intros q [Hq1 Hq2]%elem_of_col_coords. split; lia.
  - intros i j Hi Hj. rewrite box_cells_at.
    apply unit_perm; auto using NoDup_box_coords.
    intros q [Hq1 Hq2]%elem_of_box_coords. split; lia.
Qed.

Lemma solved_elim g :
  wf_grid g → solved g →
  consistent g ∧ ∀ q, in_board q → 1 ≤ cell g q.1 q.2 ≤ 9.
Proof.
  intros Hwf (Hr & Hc & Hb). split.
  - apply consistent_units. repeat split.
    + intros r Hr'. apply unit_perm_inv; [apply NoDup_row_coords|].
      rewrite <-row_cells by done. by apply Hr.
    + intros c Hc'. apply unit_perm_inv; [apply NoDup_col_coords|].
      rewrite <-col_cells_at. by apply Hc.
    + intros i j Hi Hj. apply unit_perm_inv; [apply NoDup_box_coords|].
      rewrite <-box_cells_at. by apply Hb.
  - intros q [Hq1 Hq2].
    apply (unit_perm_inv g (row_coords q.1)); [apply NoDup_row_coords| |].
    + rewrite <-row_cells by done. by apply Hr.
    + by apply elem_of_row_coords.
Qed.

(** The digit a completion holds at an empty cell is one of its candidates. *)
Lemma completion_candidate g s r c :
  wf_grid g → completion g s → in_board (r, c) → cell g r c = 0 →
  cell s r c ∈ candidates g r c.
Proof.
  intros Hwf (Hwfs & Hsol & Hagree) Hrc H0.
  destruct (solved_elim s Hwfs Hsol) as [Hcon Hdig].
  pose proof (Hdig (r, c) Hrc) as Hd. cbn [fst snd] in Hd.
  destruct Hrc as [Hr Hc]. cbn [fst snd] in Hr, Hc.
  apply elem_of_candidates_peers; try done.
  split; [done|]. split; [done|]. intros q Hq Hpe Heq.
  assert (cell s q.1 q.2 = cell s r c) as Hs by (rewrite Hagree; [done..|lia]).
  assert ((r, c) ≠ q) as Hne by (intros <-; cbn [fst snd] in Heq; lia).
  apply (Hcon (r, c) q); cbn [fst snd]; try done; lia.
Qed.

Lemma completion_set_cell g s r c :
  wf_grid g → completion g s → in_board (r, c) →
  completion (set_cell g r c (cell s r c)) s.
Proof.
  intros Hwf (Hwfs & Hsol & Hagree) [Hr Hc]. cbn [fst snd] in Hr, Hc.
  split; [done|]. split; [done|]. intros q Hq.
  rewrite cell_set_cell by done. case_decide as Heq.
  - by injection Heq as -> ->.
  - by apply Hagree.
Qed.

(** Completeness: a board that has a completion is solved by the search. *)
Lemma solve_fuel_complete n g s :
  wf_grid g → completion g s → (count_empty g < n)%nat →
  ∃ g', solve_fuel n g = Some (true, g').
Proof.
  revert g. induction n as [|n IH]; intros g Hwf Hcomp Hn; [lia|].
  simpl. destruct (find_mrv_cell g) as [[[r c] cands]|] eqn:Hf; [|by eexists].
  destruct (find_mrv_cell_Some _ _ _ _ Hf) as (Hrc & H0 & ->).
  pose proof (completion_candidate g s r c Hwf Hcomp Hrc H0) as Hd0.
  assert (1 ≤ cell s r c) as Hpos by (apply elem_of_candidates in Hd0; lia).
  assert (∀ d, d ∈ candidates g r c →
               (count_empty (set_cell g r c d) < n)%nat) as Hless.
  { intros d Hd%elem_of_candidates.
    rewrite (count_empty_set_cell g r c d) in Hn; [lia|done|done|done|lia]. }
  rewrite decide_False by (intros Hemp; rewrite Hemp in Hd0; set_solver).
  destruct (IH (set_cell g r c (cell s r c))) as [g0 Hg0];
    [by apply wf_set_cell|by apply completion_set_cell|by apply Hless|].
  destruct Hrc as [Hr Hc]. cbn [fst snd] in Hr, Hc.
  apply (try_digits_true _ r c Hr Hc _ g (cell s r c) g0); try done.
  - intros d g1 _ Hd. apply (solve_fuel_restores n); [|done].
    by apply wf_set_cell.
  - intros d Hd%elem_of_sorted. apply solve_fuel_is_Some; [|by apply Hless].
    by apply wf_set_cell.
  - by apply elem_of_sorted.
Qed.

End solved.

(* ================================================================== *)
(** * The recorded calls *)

Section calls.
Implicit Types (g : Grid) (r c n depth : nat) (d : Z) (e : call).

Lemma try_digits_log_erase rec_log rec depth entry r c ds g :
  (∀ g1, forget_calls <$> rec_log g1 = rec g1) →
  forget_calls <$> try_digits_log rec_log depth entry r c ds g =
    try_digits rec r c ds g.
Proof.
  intros Hrec. revert g. induction ds as [|d ds IH]; intros g; [done|].
  simpl. rewrite <-Hrec.
  destruct (rec_log (set_cell g r c d)) as [[[[] g1] evs]|]; simpl; [done| |done].
  rewrite <-IH.
  by destruct (try_digits_log rec_log depth entry r c ds (set_cell g1 r c 0))
    as [[[? ?] ?]|].
Qed.

Lemma solve_log_erase n depth g :
  forget_calls <$> solve_log n depth g = solve_fuel n g.
Proof.
  revert depth g. induction n as [|n IH]; intros depth g; [done|].
  simpl. destruct (find_mrv_cell g) as [[[r c] cands]|]; [|done].
  case_decide; [done|]. by apply try_digits_log_erase.
Qed.

Lemma solve_log_Some n depth g b g' evs :
  solve_log n depth g = Some (b, g', evs) → solve_fuel n g = Some (b, g').
Proof. intros H. by rewrite <-(solve_log_erase n depth), H. Qed.

Lemma solve_log_is_Some n depth g b g' :
  solve_fuel n g = Some (b, g') →
  ∃ evs, solve_log n depth g = Some (b, g', evs).
Proof.
  rewrite <-(solve_log_erase n depth).
  destruct (solve_log n depth g) as [[[b1 g1] evs]|]; [|done].
  intros [= -> ->]. by exists evs.
Qed.

Lemma call_below_up depth g r c d e :
  wf_grid g → in_board (r, c) → cell g r c = 0 → d ≠ 0 →
  call_below (S depth) (set_cell g r c d) e → call_below depth g e.
Proof.
  intros Hwf Hrc H0 Hd (Hok & Hdep & Hsum). split; [done|]. split; [lia|].
  rewrite (count_empty_set_cell g r c d) by done. lia.
Qed.

Lemma try_digits_log_calls rec_log depth r c ds g b g' evs :
  wf_grid g → in_board (r, c) → cell g r c = 0 →
  (∀ d, d ∈ ds → d ∈ candidates g r c) →
  (∀ d g1 evs1, d ∈ ds →
     rec_log (set_cell g r c d) = Some (false, g1, evs1) →
     g1 = set_cell g r c d) →
  (∀ d b1 g1 evs1, d ∈ ds →
     rec_log (set_cell g r c d) = Some (b1, g1, evs1) →
     Forall (call_below (S depth) (set_cell g r c d)) evs1) →
  try_digits_log rec_log (S depth) g r c ds g = Some (b, g', evs) →
  Forall (call_below depth g) evs.
Proof.
  intros Hwf Hrc H0. revert b g' evs.
  induction ds as [|d ds IH]; intros b g' evs Hcand Hrest Hcalls Hres.
  - injection Hres as <- <- <-. constructor.
  - simpl in Hres.
    assert (d ∈ candidates g r c) as Hd by (apply Hcand; by left).
    assert (d ≠ 0) as Hnz by (apply elem_of_candidates in Hd; lia).
    assert (call_below depth g
              (Call (S depth) g (r, c) d g (set_cell g r c d))) as Hev.
    { split; [|simpl; split; [lia|]].
      - unfold call_ok. simpl. do 6 (split; [done|]).
        by apply count_empty_set_cell.
      - rewrite (count_empty_set_cell g r c d) by done. lia. }
    destruct (rec_log (set_cell g r c d)) as [[[[] g1] evs1]|] eqn:Hrec;
      [| |done].
    + injection Hres as <- <- <-. constructor; [done|].
      eapply Forall_impl; [by eapply (Hcalls d); [by left|]|].
      intros e. by apply call_below_up.
    + rewrite (Hrest d g1 evs1) in Hres by (done || by left).
      destruct Hrc as [Hr Hc]. cbn [fst snd] in Hr, Hc.
      rewrite set_cell_undo in Hres by done.
      destruct (try_digits_log rec_log (S depth) g r c ds g)
        as [[[b2 g2] evs2]|] eqn:Hloop; [|done].
      injection Hres as <- <- <-. constructor; [done|].
      apply Forall_app. split.
      * eapply Forall_impl; [by eapply (Hcalls d); [by left|]|].
        intros e. by apply call_below_up.
      * apply (IH b2 g2); [| | |done].
        -- intros d' Hd'. apply Hcand. by right.
        -- intros d' g3 evs3 Hd'. apply Hrest. by right.
        -- intros d' b3 g3 evs3 Hd'. apply Hcalls. by right.
Qed.

(** Every call recorded below a frame was made by a frame that selected an
    empty cell, on a board with one empty cell less than that frame's, at a
    depth that the number of empty cells bounds. *)
Lemma solve_log_calls n depth g b g' evs :
  wf_grid g → solve_log n depth g = Some (b, g', evs) →
  Forall (call_below depth g) evs.
Proof.
  revert depth g b g' evs.
  induction n as [|n IH]; intros depth g b g' evs Hwf Hs; [done|].
  simpl in Hs. destruct (find_mrv_cell g) as [[[r c] cands]|] eqn:Hf.
  2:{ injection Hs as <- <- <-. constructor. }
  destruct (find_mrv_cell_Some _ _ _ _ Hf) as (Hrc & H0 & ->).
  case_decide; [injection Hs as <- <- <-; constructor|].
  eapply try_digits_log_calls; try done.
  - by intros d Hd%elem_of_sorted.
  - intros d g1 evs1 _ Hd%solve_log_Some.
    apply (solve_fuel_restores n); [|done]. by apply wf_set_cell.
  - intros d b1 g1 evs1 _ Hd. apply (IH _ _ _ _ _ (wf_set_cell _ _ _ _ Hwf) Hd).
Qed.

End calls.

(* ================================================================== *)
(** * Checking concrete boards *)

Section checks.
Implicit Types (g : Grid) (q : nat * nat).

Lemma in_range_check g :
  wf_grid g → Forall (Forall (λ v, 0 ≤ v ≤ 9)) g → in_range g.
Proof.
  intros Hwf Hall q [Hq1 Hq2].
  pose proof (row_lookup g q.1 Hwf Hq1) as Hrow.
  pose proof (cell_lookup g q.1 q.2 Hwf Hq1 Hq2) as Hcell.
  eapply (Forall_lookup_1 _ _ _ _ (Forall_lookup_1 _ _ _ _ Hall Hrow) Hcell).
Qed.

Lemma wf_GRID : wf_grid GRID.
Proof. by apply (bool_decide_unpack _). Qed.

Lemma wf_classic : wf_grid classic.
Proof. by apply (bool_decide_unpack _). Qed.

Lemma wf_zeros : wf_grid zeros.
Proof. by apply (bool_decide_unpack _). Qed.

Lemma in_range_classic : in_range classic.
Proof.
  apply in_range_check; [apply wf_classic|]. by apply (bool_decide_unpack _).
Qed.

Lemma solved_classic_solution : solved classic_solution.
Proof.
  assert (wf_grid classic_solution) as Hwf by by apply (bool_decide_unpack _).
  assert (in_range classic_solution) as Hran
    by (apply in_range_check; [done|]; by apply (bool_decide_unpack _)).
  apply solved_intro; [done| |done|].
  - apply is_valid_grid_consistent; [done|]. by vm_compute.
  - intros q Hq Hz.
    assert (Forall (Forall (λ v, v ≠ 0)) classic_solution) as Hnz
      by by apply (bool_decide_unpack _).
    destruct Hq as [Hq1 Hq2].
    pose proof (row_lookup _ q.1 Hwf Hq1) as Hrow.
    pose proof (cell_lookup _ q.1 q.2 Hwf Hq1 Hq2) as Hcell.
    by apply (Forall_lookup_1 _ _ _ _ (Forall_lookup_1 _ _ _ _ Hnz Hrow) Hcell).
Qed.

Lemma completion_classic : completion classic classic_solution.
Proof.
  split; [by apply (bool_decide_unpack _)|].
  split; [apply solved_classic_solution|].
  intros q Hq Hnz.
  assert (Forall2 (Forall2 (λ v w, v ≠ 0 → w = v)) classic classic_solution)
    as Hagree by (repeat constructor; done).
  destruct Hq as [Hq1 Hq2].
  pose proof (row_lookup _ q.1 wf_classic Hq1) as Hrow.
  pose proof (cell_lookup _ q.1 q.2 wf_classic Hq1 Hq2) as Hcell.
  destruct (Forall2_lookup_l _ _ _ _ _ Hagree Hrow) as (row' & Hrow' & Hrows).
  destruct (Forall2_lookup_l _ _ _ _ _ Hrows Hcell) as (v & Hv & Hvw).
  unfold cell at 1, row at 1. rewrite Hrow'. simpl. rewrite Hv. simpl.
  by apply Hvw.
Qed.

End checks.

(* ================================================================== *)
(** * Soundness, completeness and restoration of the search *)

(** C1, amended.  Soundness: on a nine by nine board with entries from 0 to 9
    that the validator accepts, whenever [solve] returns [True] the board it
    leaves has no zero, and the nine values of every row, of every column and
    of every box are the digits 1 to 9, each exactly once. *)
Theorem solve_sound g g' :
  wf_grid g → in_range g → is_valid_grid g = true →
  solve g = Some (true, g') →
  full g' ∧ solved g'.
Proof.
  intros Hwf Hran Hval%is_valid_grid_consistent Hs; [|done].
  apply solve_fuel_true in Hs as [Hpl Hnone]; [|done].
  assert (full g') as Hfull by (intros q; by apply find_mrv_cell_None).
  split; [done|]. apply solved_intro; try done.
  - by apply (placed_wf g).
  - by apply (placed_consistent g).
  - by apply (placed_in_range g).
Qed.

Lemma solve_sound_witness : full classic_solution ∧ solved classic_solution.
Proof.
  apply (solve_sound classic classic_solution).
  - apply wf_classic.
  - apply in_range_classic.
  - vm_compute. reflexivity.
  - vm_compute. reflexivity.
Defined.

(** C1 as stated fails: [solve] answers [True] on any board without an empty
    cell, whatever it holds.  It does so on the board of eighty-one fives,
    and on a board without repeats in which [10] stands for [9]; neither is
    a solved board. *)
Lemma solve_sound_counterexample :
  (wf_grid all_fives ∧ solve all_fives = Some (true, all_fives) ∧
   ¬ solved all_fives) ∧
  (wf_grid with_tens ∧ is_valid_grid with_tens = true ∧
   solve with_tens = Some (true, with_tens) ∧ ¬ solved with_tens).
Proof.
  split.
  - split; [by apply (bool_decide_unpack _)|]. split; [by vm_compute|].
    intros (Hr & _ & _).
    assert (1 ∈ row all_fives 0) as Hin.
    { rewrite (Hr 0%nat) by lia. apply elem_of_seqZ. lia. }
    revert Hin. by apply (bool_decide_unpack _).
  - split; [by apply (bool_decide_unpack _)|]. split; [by vm_compute|].
    split; [by vm_compute|].
    intros (Hr & _ & _).
    assert (9 ∈ row with_tens 0) as Hin.
    { rewrite (Hr 0%nat) by lia. apply elem_of_seqZ. lia. }
    revert Hin. by apply (bool_decide_unpack _).
Qed.

(** C2.  Completeness: on a board that the validator accepts and that has a
    completion, [solve] returns [True]. *)
Theorem solve_complete g s :
  wf_grid g → is_valid_grid g = true → completion g s →
  ∃ g', solve g = Some (true, g').
Proof.
  intros Hwf _ Hcomp. unfold solve. apply (solve_fuel_complete _ g s); auto.
Qed.

Lemma solve_complete_witness : ∃ g', solve classic = Some (true, g').
Proof.
  apply (solve_complete classic classic_solution).
  - apply wf_classic.
  - vm_compute. reflexivity.
  - apply completion_classic.
Defined.

(** C3.  Restoration: when [solve] returns [False], the board after the call
    is the board before the call, cell for cell. *)
Theorem solve_restores g g' :
  wf_grid g → solve g = Some (false, g') → g' = g.
Proof. intros Hwf Hs. by apply (solve_fuel_restores _ g g' Hwf Hs). Qed.

Lemma solve_restores_witness : GRID = GRID.
Proof.
  apply (solve_restores GRID GRID).
  - apply wf_GRID.
  - vm_compute. reflexivity.
Defined.

(** The default puzzle has no solution: the search fails on it and hands it
    back; the classic puzzle is solved. *)
Example solve_GRID : solve GRID = Some (false, GRID).
Proof. by vm_compute. Qed.

Example GRID_has_no_completion : ¬ ∃ s, completion GRID s.
Proof.
  intros [s Hs].
  destruct (solve_fuel_complete (S (count_empty GRID)) GRID s wf_GRID Hs)
    as [g' Hg']; [lia|].
  fold (solve GRID) in Hg'. by rewrite solve_GRID in Hg'.
Qed.

Example solve_classic : solve classic = Some (true, classic_solution).
Proof. by vm_compute. Qed.

Example is_valid_grid_GRID : is_valid_grid GRID = true.
Proof. reflexivity. Qed.

(* ================================================================== *)
(** * The validator and the candidate engine *)

(** C4.  Validator: [is_valid_grid] returns [False] on every board with a
    duplicate nonzero value in some row, column or box, and [True] on every
    board without one. *)
Theorem is_valid_grid_correct g :
  wf_grid g →
  (has_duplicate g → is_valid_grid g = false) ∧
  (¬ has_duplicate g → is_valid_grid g = true).
Proof.
  intros Hwf. split.
  - intros Hdup. apply not_true_is_false.
    intros Hcon%is_valid_grid_consistent%consistent_no_duplicate; done.
  - intros Hno. apply is_valid_grid_consistent; [done|].
    by apply consistent_no_duplicate.
Qed.

Lemma is_valid_grid_correct_witness : is_valid_grid two_fives = false.
Proof.
  apply (is_valid_grid_correct two_fives).
  - by apply (bool_decide_unpack _).
  - left. exists (0, 0)%nat, (0, 1)%nat. split; [reflexivity|].
    unfold clash, in_board. simpl. repeat split; (lia || done).
Defined.

(** C5.  Candidate engine: on an empty cell [candidates] is the set of the
    digits 1 to 9 that are not a nonzero value of the row, of the column or
    of the box of the cell; on a filled cell it is the empty set. *)
Theorem candidates_contract g r c :
  wf_grid g → (r < 9)%nat → (c < 9)%nat →
  (cell g r c = 0 →
   ∀ d, d ∈ candidates g r c ↔
        1 ≤ d ≤ 9 ∧
        ¬ (used_in g (same_row (r, c)) d ∨ used_in g (same_col (r, c)) d ∨
           used_in g (same_box (r, c)) d)) ∧
  (cell g r c ≠ 0 → candidates g r c = ∅).
Proof.
  intros Hwf Hr Hc. split; [|apply candidates_filled].
  intros H0 d.
  rewrite elem_of_candidates, (elem_of_row_vals g r c),
    (elem_of_col_vals g r c), (elem_of_box_vals g r c) by done.
  tauto.
Qed.

Lemma candidates_contract_witness :
  (cell GRID 0 2 = 0 →
   ∀ d, d ∈ candidates GRID 0 2 ↔
        1 ≤ d ≤ 9 ∧
        ¬ (used_in GRID (same_row (0, 2)%nat) d ∨
           used_in GRID (same_col (0, 2)%nat) d ∨
           used_in GRID (same_box (0, 2)%nat) d)) ∧
  (cell GRID 0 2 ≠ 0 → candidates GRID 0 2 = ∅).
Proof.
  apply (candidates_contract GRID 0 2).
  - apply wf_GRID.
  - lia.
  - lia.
Defined.

Example candidates_GRID_0_2 : sorted (candidates GRID 0 2) = [1; 2; 4].
Proof. reflexivity. Qed.

Example candidates_GRID_0_0 : candidates GRID 0 0 = ∅.
Proof. reflexivity. Qed.

(* ================================================================== *)
(** * The choice of the MRV selector *)

(** C6.  Tie-break: the cell that [find_mrv_cell] returns has the smallest
    candidate set among the cells whose candidate sets the scan computed, and
    it comes first in row-major order among the empty cells with a candidate
    set of that size, computed or not.  When it has two candidates or more,
    the scan has computed the candidate set of every empty cell. *)
Theorem find_mrv_cell_tie_break g r c cands :
  find_mrv_cell g = Some (r, c, cands) →
  cands = candidates g r c ∧ cell g r c = 0 ∧ (r, c) ∈ scanned g ∧
  (∀ q, q ∈ scanned g →
     cell g q.1 q.2 = 0 ∧ (size cands ≤ cand_size g q)%nat) ∧
  (∀ q, in_board q → cell g q.1 q.2 = 0 → cand_size g q = size cands →
     (scan_index (r, c) ≤ scan_index q)%nat) ∧
  ((2 ≤ size cands)%nat →
   ∀ q, in_board q → cell g q.1 q.2 = 0 → q ∈ scanned g).
Proof.
  intros Hf. pose proof (find_mrv_cell_post g) as Hp. rewrite Hf in Hp.
  destruct Hp as (Hc & H0 & Hin & i & Hi & Hseen & Hmin).
  apply lookup_scan_order in Hi as Hi'. destruct Hi' as [_ ->].
  split; [done|]. split; [done|]. split; [done|]. split; [|split].
  - intros q Hq. destruct (Hmin q Hq) as (Hq0 & Hle & _). done.
  - intros q Hq Hq0 Hsz.
    destruct (decide (scan_index (r, c) ≤ scan_index q)%nat) as [|Hlt]; [done|].
    assert (q ∈ scanned g) as Hqs.
    { apply (Hseen (scan_index q)); [by apply lookup_scan_order|done|].
      left. lia. }
    destruct (Hmin q Hqs) as (_ & _ & Htie).
    destruct (Htie Hsz) as (j & Hj & Hij).
    apply lookup_scan_order in Hj as [_ ->]. done.
  - intros Hsz q Hq Hq0.
    apply (Hseen (scan_index q)); [by apply lookup_scan_order|done|by right].
Qed.

Lemma find_mrv_cell_tie_break_witness :
  candidates zeros 0 0 = candidates zeros 0 0 ∧ cell zeros 0 0 = 0 ∧
  (0, 0)%nat ∈ scanned zeros ∧
  (∀ q, q ∈ scanned zeros →
     cell zeros q.1 q.2 = 0 ∧
     (size (candidates zeros 0 0) ≤ cand_size zeros q)%nat) ∧
  (∀ q, in_board q → cell zeros q.1 q.2 = 0 →
     cand_size zeros q = size (candidates zeros 0 0) →
     (scan_index (0, 0)%nat ≤ scan_index q)%nat) ∧
  ((2 ≤ size (candidates zeros 0 0))%nat →
   ∀ q, in_board q → cell zeros q.1 q.2 = 0 → q ∈ scanned zeros).
Proof.
  apply (find_mrv_cell_tie_break zeros 0 0 (candidates zeros 0 0)).
  vm_compute. reflexivity.
Defined.

(** On the empty board all eighty-one cells tie with nine candidates, and the
    first one is returned. *)
Example find_mrv_cell_zeros :
  find_mrv_cell zeros = Some (0%nat, 0%nat, list_to_set (seqZ 1 9)) ∧
  length (scanned zeros) = 81%nat.
Proof. split; reflexivity. Qed.

(** The scan stops at the first cell with a single candidate: on
    [early_exit] it returns the first cell, with one candidate, and never
    looks at the two cells of the last row that have none. *)
Example find_mrv_cell_early_exit :
  is_valid_grid early_exit = true ∧
  find_mrv_cell early_exit = Some (0%nat, 0%nat, {[1]}) ∧
  scanned early_exit = [(0, 0)%nat] ∧
  cell early_exit 8 7 = 0 ∧ candidates early_exit 8 7 = ∅ ∧
  cell early_exit 8 8 = 0 ∧ candidates early_exit 8 8 = ∅.
Proof. repeat split; reflexivity. Qed.

(* ================================================================== *)
(** * Termination and frame of the search *)

(** C7.  Termination and depth: on every nine by nine board [solve] returns;
    the board has at most 81 empty cells; no recursive call is nested deeper
    than the number of empty cells of the board, and every recursive call is
    made on a board with fewer empty cells than the board of the frame that
    makes it. *)
Theorem solve_terminates g :
  wf_grid g →
  (count_empty g ≤ 81)%nat ∧
  ∃ b g' calls,
    solve g = Some (b, g') ∧
    (∀ n, (count_empty g < n)%nat → solve_fuel n g = Some (b, g')) ∧
    solve_log (S (count_empty g)) 0 g = Some (b, g', calls) ∧
    Forall (λ e, (call_depth e ≤ count_empty g)%nat ∧
                 (count_empty (call_arg e) < count_empty (call_entry e))%nat)
           calls.
Proof.
  intros Hwf. split; [apply count_empty_le|].
  destruct (solve_fuel_is_Some (S (count_empty g)) g Hwf) as [[b g'] Hs];
    [lia|].
  destruct (solve_log_is_Some _ 0 _ _ _ Hs) as [calls Hlog].
  exists b, g', calls. split; [done|]. split; [|split; [done|]].
  - intros n Hn. apply (solve_fuel_mono (S (count_empty g))); [lia|done].
  - eapply Forall_impl; [by apply (solve_log_calls _ _ _ _ _ _ Hwf Hlog)|].
    intros e ((_ & _ & _ & _ & _ & _ & Hcnt) & Hdep & Hsum). simpl. lia.
Qed.

Lemma solve_terminates_witness :
  (count_empty GRID ≤ 81)%nat ∧
  ∃ b g' calls,
    solve GRID = Some (b, g') ∧
    (∀ n, (count_empty GRID < n)%nat → solve_fuel n GRID = Some (b, g')) ∧
    solve_log (S (count_empty GRID)) 0 GRID = Some (b, g', calls) ∧
    Forall (λ e, (call_depth e ≤ count_empty GRID)%nat ∧
                 (count_empty (call_arg e) < count_empty (call_entry e))%nat)
           calls.
Proof. apply (solve_terminates GRID). apply wf_GRID. Defined.

(** C10.  Clue preservation: whatever [solve] returns, every cell that was
    filled before the call holds the same value after it; every write of the
    search goes to the cell its frame selected, which was empty on entry of
    the frame and is empty again whenever a digit is written. *)
Theorem solve_preserves_clues g b g' :
  wf_grid g → solve g = Some (b, g') →
  (∀ r c, (r < 9)%nat → (c < 9)%nat →
          cell g r c ≠ 0 → cell g' r c = cell g r c) ∧
  ∃ calls,
    solve_log (S (count_empty g)) 0 g = Some (b, g', calls) ∧
    Forall (λ e,
      cell (call_entry e) (call_cell e).1 (call_cell e).2 = 0 ∧
      cell (call_before e) (call_cell e).1 (call_cell e).2 = 0 ∧
      call_arg e =
        set_cell (call_before e) (call_cell e).1 (call_cell e).2
                 (call_digit e)) calls.
Proof.
  intros Hwf Hs. split.
  - intros r c Hr Hc Hnz. destruct b.
    + apply solve_fuel_true in Hs as [Hpl _]; [|done].
      by apply (placed_clues g g' Hpl Hwf (r, c)).
    + by rewrite (solve_fuel_restores _ g g' Hwf Hs).
  - destruct (solve_log_is_Some _ 0 _ _ _ Hs) as [calls Hlog].
    exists calls. split; [done|].
    eapply Forall_impl; [by apply (solve_log_calls _ _ _ _ _ _ Hwf Hlog)|].
    intros e ((_ & _ & H0 & Hbefore & _ & Harg & _) & _). simpl.
    rewrite Hbefore. split; [done|]. split; [done|]. by rewrite <-Hbefore.
Qed.

Lemma solve_preserves_clues_witness :
  (∀ r c, (r < 9)%nat → (c < 9)%nat →
          cell classic r c ≠ 0 → cell classic_solution r c = cell classic r c) ∧
  ∃ calls,
    solve_log (S (count_empty classic)) 0 classic =
      Some (true, classic_solution, calls) ∧
    Forall (λ e,
      cell (call_entry e) (call_cell e).1 (call_cell e).2 = 0 ∧
      cell (call_before e) (call_cell e).1 (call_cell e).2 = 0 ∧
      call_arg e =
        set_cell (call_before e) (call_cell e).1 (call_cell e).2
                 (call_digit e)) calls.
Proof.
  apply (solve_preserves_clues classic true classic_solution).
  - apply wf_classic.
  - vm_compute. reflexivity.
Defined.

(* ================================================================== *)
(** * Reading the puzzle and running the program *)

Section input.
Implicit Types (stdin : list string) (line l : string) (acc : list (list Z)).

Lemma length_list_ascii_of_string l :
  length (list_ascii_of_string l) = String.length l.
Proof. induction l as [|a l IH]; simpl; [done|by rewrite IH]. Qed.

Lemma digit_of_range a : is_digit a = true → 0 ≤ digit_of a ≤ 9.
Proof.
  unfold is_digit, digit_of. cbn zeta.
  rewrite andb_true_iff, !Nat.leb_le. lia.
Qed.

Lemma digits_of_spec l :
  nine_digits l = true →
  length (digits_of l) = 9%nat ∧ Forall (λ v, 0 ≤ v ≤ 9) (digits_of l).
Proof.
  unfold nine_digits, digits_of.
  rewrite andb_true_iff, Nat.eqb_eq, forallb_forall. intros [Hlen Hdig].
  split.
  - by rewrite length_fmap, length_list_ascii_of_string.
  - apply Forall_fmap, Forall_forall. intros a Ha.
    by apply digit_of_range, Hdig, list_elem_of_In.
Qed.

Lemma row_from_length l row : row_from l row → length row = 9%nat.
Proof.
  intros [[Hlen Hints]|(Hnine & -> & _)].
  - apply length_mapM in Hints. congruence.
  - by apply digits_of_spec.
Qed.

Lemma accepted_lines_cons line stdin :
  (accepted_lines stdin ≤ accepted_lines (line :: stdin))%nat.
Proof.
  unfold accepted_lines. rewrite filter_cons. case_decide; simpl; lia.
Qed.

Lemma accepted_lines_cons_accepted line stdin :
  accepts (strip line) = true →
  accepted_lines (line :: stdin) = S (accepted_lines stdin).
Proof.
  intros Hacc. unfold accepted_lines. by rewrite filter_cons, decide_True.
Qed.

Lemma finish_Some acc g : finish acc = Some g → g = acc ∧ length acc = 9%nat.
Proof.
  unfold finish. destruct (length acc =? 9)%nat eqn:Hlen; [|done].
  apply Nat.eqb_eq in Hlen. by intros [= <-].
Qed.

(** What the loop returns: the rows it had, followed by rows read from lines
    of the input, nine in all. *)
Lemma read_lines_Some stdin acc g :
  read_lines stdin acc = Some g →
  length g = 9%nat ∧
  ∃ rows, g = acc ++ rows ∧
    Forall (λ row, ∃ line, line ∈ stdin ∧ row_from (strip line) row) rows ∧
    (length rows ≤ accepted_lines stdin)%nat.
Proof.
  revert acc. induction stdin as [|line rest IH]; intros acc Hres.
  { apply finish_Some in Hres as [-> Hlen]. split; [done|].
    exists []. by rewrite app_nil_r. }
  assert (∀ acc', read_lines rest acc' = Some g →
            length g = 9%nat ∧
            ∃ rows, g = acc' ++ rows ∧
              Forall (λ row, ∃ line0, line0 ∈ line :: rest ∧
                                      row_from (strip line0) row) rows ∧
              (length rows ≤ accepted_lines rest)%nat) as IH'.
  { intros acc' Hacc'.
    destruct (IH acc' Hacc') as (Hlen & rows & -> & Hrows & Hn).
    split; [done|]. exists rows. split; [done|]. split; [|done].
    eapply Forall_impl; [done|]. intros row (l0 & Hl0 & Hfrom).
    exists l0. split; [by right|done]. }
  assert (∀ row, row_from (strip line) row → accepts (strip line) = true →
            (if (length (acc ++ [row]) =? 9)%nat then finish (acc ++ [row])
             else read_lines rest (acc ++ [row])) = Some g →
            length g = 9%nat ∧
            ∃ rows, g = acc ++ rows ∧
              Forall (λ row, ∃ line0, line0 ∈ line :: rest ∧
                                      row_from (strip line0) row) rows ∧
              (length rows ≤ accepted_lines (line :: rest))%nat) as Happend.
  { intros row Hfrom Hacc Hgo.
    assert (∃ line0, line0 ∈ line :: rest ∧ row_from (strip line0) row)
      as Hrow by (exists line; split; [by left|done]).
    rewrite accepted_lines_cons_accepted by done.
    destruct (length (acc ++ [row]) =? 9)%nat.
    - apply finish_Some in Hgo as [-> Hlen]. split; [done|].
      exists [row]. split; [done|]. split; [by constructor|simpl; lia].
    - destruct (IH' _ Hgo) as (Hlen & rows & -> & Hrows & Hn).
      split; [done|]. exists (row :: rows).
      split; [by rewrite <-app_assoc|]. split; [by constructor|simpl; lia]. }
  simpl in Hres. case_decide as Hblank.
  { destruct (IH' acc Hres) as (Hlen & rows & -> & Hrows & Hn).
    split; [done|]. exists rows. split; [done|]. split; [done|].
    pose proof (accepted_lines_cons line rest). lia. }
  destruct (length (parts_of (strip line)) =? 9)%nat eqn:Hparts.
  - destruct (ints_of (parts_of (strip line))) as [row|] eqn:Hints; [|done].
    apply Nat.eqb_eq in Hparts.
    apply (Happend row); [by left| |done].
    unfold accepts. apply orb_true_iff. left. by apply Nat.eqb_eq.
  - destruct (nine_digits (strip line)) eqn:Hnine.
    + apply (Happend (digits_of (strip line))); [| |done].
      * right. split; [done|]. split; [done|]. by apply digits_of_spec.
      * unfold accepts. by rewrite Hnine, orb_true_r.
    + destruct (length acc =? 9)%nat.
      * apply finish_Some in Hres as [-> Hlen]. split; [done|].
        exists []. rewrite app_nil_r. split; [done|]. split; [done|simpl; lia].
      * destruct (IH' acc Hres) as (Hlen & rows & -> & Hrows & Hn).
        split; [done|]. exists rows. split; [done|]. split; [done|].
        pose proof (accepted_lines_cons line rest). lia.
Qed.

Lemma read_grid_Some stdin g :
  read_grid_from_stdin stdin = Some g →
  wf_grid g ∧ (9 ≤ accepted_lines stdin)%nat ∧
  Forall (λ row, ∃ line, line ∈ stdin ∧ row_from (strip line) row) g.
Proof.
  intros (Hlen & rows & -> & Hrows & Hn)%read_lines_Some. simpl in *.
  split; [|split; [lia|done]]. split; [done|].
  eapply Forall_impl; [done|]. intros row (line & _ & Hfrom).
  by apply (row_from_length (strip line)).
Qed.

Lemma copy_grid_id (g : Grid) : copy_grid g = g.
Proof. unfold copy_grid. apply list_fmap_id. Qed.

Lemma main_grid_Some stdin g :
  read_grid_from_stdin stdin = Some g → main_grid stdin = g.
Proof.
  intros Hread. unfold main_grid. rewrite Hread.
  apply read_grid_Some in Hread as [[Hlen _] _]. by destruct g.
Qed.

Lemma main_grid_None stdin :
  read_grid_from_stdin stdin = None → main_grid stdin = GRID.
Proof. intros Hread. unfold main_grid. by rewrite Hread. Qed.

Lemma wf_main_grid stdin : wf_grid (main_grid stdin).
Proof.
  destruct (read_grid_from_stdin stdin) as [g|] eqn:Hread.
  - rewrite (main_grid_Some _ _ Hread).
    by apply read_grid_Some in Hread as [? _].
  - rewrite (main_grid_None _ Hread). apply wf_GRID.
Qed.


End input.






Example read_grid_digits :
  read_grid_from_stdin two_fives_input =
    Some (replicate 9 [5; 5; 0; 0; 0; 0; 0; 0; 0]).
Proof. reflexivity. Qed.

Example read_grid_too_short :
  read_grid_from_stdin (replicate 8 "123456789"%string) = None ∧
  main_grid (replicate 8 "123456789"%string) = GRID.
Proof. split; reflexivity. Qed.

Example read_grid_bad_token :
  read_grid_from_stdin
    ("1 2 3 4 5 6 7 8 x"%string :: replicate 9 "123456789"%string) = None.
Proof. reflexivity. Qed.

(* ================================================================== *)
(** * Further properties of the selector and of the candidate engine *)

Section more_candidates.
Implicit Types (g : Grid) (r c : nat) (p q : nat * nat) (d : Z).

Lemma peers_refl q : peers q q.
Proof. by left. Qed.

Lemma full_check g :
  wf_grid g → Forall (Forall (λ v, v ≠ 0)) g → full g.
Proof.
  intros Hwf Hall q [Hq1 Hq2].
  pose proof (row_lookup g q.1 Hwf Hq1) as Hrow.
  pose proof (cell_lookup g q.1 q.2 Hwf Hq1 Hq2) as Hcell.
  apply (Forall_lookup_1 _ _ _ _ (Forall_lookup_1 _ _ _ _ Hall Hrow) Hcell).
Qed.

(** Two boards of nine rows of nine cells with the same cells are equal. *)
Lemma grid_ext g g' :
  wf_grid g → wf_grid g' →
  (∀ q, in_board q → cell g q.1 q.2 = cell g' q.1 q.2) → g = g'.
Proof.
  intros Hwf Hwf' Hcells. apply list_eq_same_length with 9%nat.
  - apply Hwf'.
  - apply Hwf.
  - intros r x y Hr Hx Hy.
    rewrite (row_lookup g r Hwf Hr) in Hx.
    rewrite (row_lookup g' r Hwf' Hr) in Hy.
    injection Hx as <-. injection Hy as <-.
    apply list_eq_same_length with 9%nat.
    + by apply wf_row_length.
    + by apply wf_row_length.
    + intros c v w Hc Hv Hw.
      rewrite (cell_lookup g r c Hwf Hr Hc) in Hv.
      rewrite (cell_lookup g' r c Hwf' Hr Hc) in Hw.
      injection Hv as <-. injection Hw as <-.
      apply (Hcells (r, c)). by split.
Qed.

End more_candidates.

Lemma find_mrv_cell_full g : full g → find_mrv_cell g = None.
Proof.
  intros Hfull. destruct (find_mrv_cell g) as [[[r c] cands]|] eqn:Hf; [|done].
  destruct (find_mrv_cell_Some _ _ _ _ Hf) as (Hrc & H0 & _).
  by destruct (Hfull (r, c) Hrc).
Qed.

(** X1.  [find_mrv_cell] answers [None] exactly on the boards without an
    empty cell. *)
Theorem find_mrv_cell_None_iff g : find_mrv_cell g = None ↔ full g.
Proof.
  split; [intros Hf q; by apply find_mrv_cell_None|apply find_mrv_cell_full].
Qed.

(** X2.  Whenever some empty cell has a candidate set with at most one
    digit, the cell [find_mrv_cell] returns has at most one candidate: forced
    cells and dead ends are served before any cell with a choice. *)
Theorem find_mrv_cell_forced_first g r c cands q :
  find_mrv_cell g = Some (r, c, cands) →
  in_board q → cell g q.1 q.2 = 0 → (cand_size g q ≤ 1)%nat →
  (size cands ≤ 1)%nat.
Proof.
  intros Hf Hq Hq0 Hsz. pose proof (find_mrv_cell_post g) as Hp.
  rewrite Hf in Hp. destruct Hp as (_ & _ & _ & i & _ & Hseen & Hmin).
  destruct (decide (size cands ≤ 1)%nat) as [|Hbig]; [done|].
  assert (q ∈ scanned g) as Hqs.
  { apply (Hseen (scan_index q)); [by apply lookup_scan_order|done|].
    right. lia. }
  destruct (Hmin q Hqs) as (_ & Hle & _). lia.
Qed.

Lemma find_mrv_cell_forced_first_witness :
  (size ({[1%Z]} : gset Z) ≤ 1)%nat.
Proof.
  apply (find_mrv_cell_forced_first early_exit 0 0 {[1]} (8, 7)%nat).
  - vm_compute. reflexivity.
  - split; simpl; lia.
  - reflexivity.
  - vm_compute. lia.
Defined.

(** X3.  Propagation: once a nonzero digit is written into a cell, it is a
    candidate of no cell of the same row, column or box. *)
Theorem candidates_after_write g r c d q :
  wf_grid g → in_board (r, c) → in_board q → peers (r, c) q → d ≠ 0 →
  d ∉ candidates (set_cell g r c d) q.1 q.2.
Proof.
  intros Hwf [Hr Hc] [Hq1 Hq2] Hpe Hd Hin. cbn [fst snd] in Hr, Hc.
  apply elem_of_candidates_peers in Hin as (_ & _ & Hfree);
    [|by apply wf_set_cell|done|done].
  apply (Hfree (r, c)); [by split| |].
  - apply peers_sym. by destruct q.
  - cbn [fst snd]. by apply cell_set_cell_eq.
Qed.

Lemma candidates_after_write_witness :
  4 ∉ candidates (set_cell GRID 0 2 4) 2 0.
Proof.
  apply (candidates_after_write GRID 0 2 4 (2, 0)%nat).
  - apply wf_GRID.
  - split; simpl; lia.
  - split; simpl; lia.
  - right; right. split; reflexivity.
  - lia.
Defined.

(** X4.  Frame: writing a cell leaves the candidate set of every cell
    outside its row, column and box as it was. *)
Theorem candidates_frame g r c d q :
  wf_grid g → in_board (r, c) → in_board q → ¬ peers (r, c) q →
  candidates (set_cell g r c d) q.1 q.2 = candidates g q.1 q.2.
Proof.
  intros Hwf [Hr Hc] [Hq1 Hq2] Hnp. cbn [fst snd] in Hr, Hc.
  assert (∀ p, peers (q.1, q.2) p → cell (set_cell g r c d) p.1 p.2 = cell g p.1 p.2)
    as Hsame.
  { intros p Hpe. apply cell_set_cell_ne; [done|done|].
    intros Heq. apply Hnp. apply peers_sym.
    destruct q as [a b], p as [a' b']. cbn [fst snd] in *.
    by injection Heq as <- <-. }
  apply set_eq. intros d'.
  rewrite !elem_of_candidates_peers; [|done..|by apply wf_set_cell|done|done].
  assert (cell (set_cell g r c d) q.1 q.2 = cell g q.1 q.2) as ->
    by apply (Hsame (q.1, q.2) (peers_refl _)).
  split; intros (H0 & Hran & Hfree); (split; [done|]); (split; [done|]);
    intros p Hp Hpe.
  - rewrite <-(Hsame p Hpe). by apply Hfree.
  - rewrite (Hsame p Hpe). by apply Hfree.
Qed.

Lemma candidates_frame_witness :
  candidates (set_cell GRID 0 2 4) 4 4 = candidates GRID 4 4.
Proof.
  apply (candidates_frame GRID 0 2 4 (4, 4)%nat).
  - apply wf_GRID.
  - split; simpl; lia.
  - split; simpl; lia.
  - unfold peers, same_row, same_col, same_box. simpl.
    intros [H|[H|[H _]]]; discriminate.
Defined.

(** X5.  Filling an empty cell adds no candidate to any other cell: the
    candidate sets only shrink as the search descends. *)
Theorem candidates_shrink g r c d q :
  wf_grid g → in_board (r, c) → in_board q → cell g r c = 0 →
  candidates (set_cell g r c d) q.1 q.2 ⊆ candidates g q.1 q.2.
Proof.
  intros Hwf [Hr Hc] Hq H0 d'. destruct q as [a b], Hq as [Hq1 Hq2].
  cbn [fst snd] in *.
  rewrite !elem_of_candidates_peers; [|done..|by apply wf_set_cell|done|done].
  intros (Hq0 & Hran & Hfree).
  assert (cell g a b = 0) as Hab.
  { rewrite cell_set_cell in Hq0 by done. case_decide as Heq; [|done].
    by injection Heq as <- <-. }
  split; [done|]. split; [done|].
  intros p Hp Hpe Hv. apply (Hfree p Hp Hpe).
  rewrite cell_set_cell by done. case_decide as Hp'; [|done].
  destruct p as [pr pc]. injection Hp' as <- <-. cbn [fst snd] in Hv. lia.
Qed.

Lemma candidates_shrink_witness :
  candidates (set_cell GRID 0 2 4) 0 3 ⊆ candidates GRID 0 3.
Proof.
  apply (candidates_shrink GRID 0 2 4 (0, 3)%nat).
  - apply wf_GRID.
  - split; simpl; lia.
  - split; simpl; lia.
  - reflexivity.
Defined.

(* ================================================================== *)
(** * Further properties of the search *)

Section more_search.
Implicit Types (g s : Grid) (r c n : nat) (p q : nat * nat) (d : Z).

(** A board that has a completion is consistent and holds digits only. *)
Lemma completion_valid g s :
  wf_grid g → completion g s → consistent g ∧ in_range g.
Proof.
  intros Hwf (Hwfs & Hsol & Hagree).
  destruct (solved_elim s Hwfs Hsol) as [Hcon Hdig]. split.
  - intros p q Hp Hq Hne Hpe Hnz Heq.
    apply (Hcon p q Hp Hq Hne Hpe).
    + pose proof (Hdig p Hp). lia.
    + rewrite (Hagree p Hp Hnz), (Hagree q Hq) by congruence. done.
  - intros q Hq. destruct (decide (cell g q.1 q.2 = 0)) as [->|Hnz]; [lia|].
    rewrite <-(Hagree q Hq Hnz). pose proof (Hdig q Hq). lia.
Qed.

(** The board of a successful search is a completion of the board it was
    given. *)
Lemma solve_fuel_true_completion n g g' :
  wf_grid g → consistent g → in_range g →
  solve_fuel n g = Some (true, g') → completion g g'.
Proof.
  intros Hwf Hcon Hran Hs.
  apply solve_fuel_true in Hs as [Hpl Hnone]; [|done].
  pose proof (placed_wf g g' Hpl Hwf) as Hwf'.
  split; [done|]. split.
  - apply solved_intro; [done| | |].
    + by apply (placed_consistent g).
    + by apply (placed_in_range g).
    + intros q. by apply find_mrv_cell_None.
  - by apply placed_clues.
Qed.

(** A cell without candidates stays empty under placements. *)
Lemma placed_dead g g' q :
  placed g g' → wf_grid g → in_board q →
  cell g q.1 q.2 = 0 → candidates g q.1 q.2 = ∅ → cell g' q.1 q.2 = 0.
Proof.
  induction 1 as [|g r c d g' Hrc H0 Hd Hpl IH]; intros Hwf Hq Hq0 Hdead;
    [done|].
  destruct Hrc as [Hr Hc]. cbn [fst snd] in Hr, Hc.
  assert ((r, c) ≠ (q.1, q.2)) as Hne.
  { intros [= -> ->]. rewrite Hdead in Hd. by apply not_elem_of_empty in Hd. }
  apply IH; [by apply wf_set_cell|done| |].
  - by rewrite cell_set_cell_ne.
  - apply elem_of_equiv_empty_L. intros d' Hd'.
    assert (d' ∈ candidates g q.1 q.2) as Hin; [|by rewrite Hdead in Hin].
    destruct Hq as [Hq1 Hq2].
    apply elem_of_candidates_peers in Hd' as (_ & Hran & Hfree);
      [|by apply wf_set_cell|done|done].
    apply elem_of_candidates_peers; [done..|].
    split; [done|]. split; [done|]. intros p Hp Hpe Hv.
    apply (Hfree p Hp Hpe). rewrite cell_set_cell by done.
    case_decide as Hp'; [|done].
    destruct p as [pr pc]. injection Hp' as <- <-. cbn [fst snd] in Hv. lia.
Qed.

End more_search.

Section invariant.
(** A property of boards that writing a candidate into an empty cell keeps
    holds of every board the search hands to a recursive call. *)
Variable Inv : Grid → Prop.
Hypothesis Inv_step : ∀ g r c d,
  wf_grid g → in_board (r, c) → d ∈ candidates g r c →
  Inv g → Inv (set_cell g r c d).

Lemma try_digits_log_inv rec_log depth r c ds g b g' evs :
  wf_grid g → in_board (r, c) → cell g r c = 0 → Inv g →
  (∀ d, d ∈ ds → d ∈ candidates g r c) →
  (∀ d g1 evs1, d ∈ ds →
     rec_log (set_cell g r c d) = Some (false, g1, evs1) →
     g1 = set_cell g r c d) →
  (∀ d b1 g1 evs1, d ∈ ds →
     rec_log (set_cell g r c d) = Some (b1, g1, evs1) →
     Forall (λ e, Inv (call_arg e)) evs1) →
  try_digits_log rec_log depth g r c ds g = Some (b, g', evs) →
  Forall (λ e, Inv (call_arg e)) evs.
Proof.
  intros Hwf Hrc H0 Hinv. revert b g' evs.
  induction ds as [|d ds IH]; intros b g' evs Hcand Hrest Hcalls Hres.
  - injection Hres as <- <- <-. constructor.
  - simpl in Hres.
    assert (Inv (set_cell g r c d)) as Hev
      by (apply Inv_step; try done; apply Hcand; by left).
    destruct (rec_log (set_cell g r c d)) as [[[[] g1] evs1]|] eqn:Hrec;
      [| |done].
    + injection Hres as <- <- <-. constructor; [done|].
      by eapply (Hcalls d); [by left|].
    + rewrite (Hrest d g1 evs1) in Hres by (done || by left).
      destruct Hrc as [Hr Hc]. cbn [fst snd] in Hr, Hc.
      rewrite set_cell_undo in Hres by done.
      destruct (try_digits_log rec_log depth g r c ds g)
        as [[[b2 g2] evs2]|] eqn:Hloop; [|done].
      injection Hres as <- <- <-. constructor; [done|].
      apply Forall_app. split; [by eapply (Hcalls d); [by left|]|].
      apply (IH b2 g2); [| | |done].
      * intros d' Hd'. apply Hcand. by right.
      * intros d' g3 evs3 Hd'. apply Hrest. by right.
      * intros d' b3 g3 evs3 Hd'. apply Hcalls. by right.
Qed.

Lemma solve_log_inv n depth g b g' evs :
  wf_grid g → Inv g → solve_log n depth g = Some (b, g', evs) →
  Forall (λ e, Inv (call_arg e)) evs.
Proof.
  revert depth g b g' evs.
  induction n as [|n IH]; intros depth g b g' evs Hwf Hinv Hs; [done|].
  simpl in Hs. destruct (find_mrv_cell g) as [[[r c] cands]|] eqn:Hf.
  2:{ injection Hs as <- <- <-. constructor. }
  destruct (find_mrv_cell_Some _ _ _ _ Hf) as (Hrc & H0 & ->).
  case_decide; [injection Hs as <- <- <-; constructor|].
  eapply try_digits_log_inv; try done.
  - by intros d Hd%elem_of_sorted.
  - intros d g1 evs1 _ Hd%solve_log_Some.
    apply (solve_fuel_restores n); [|done]. by apply wf_set_cell.
  - intros d b1 g1 evs1 Hd%elem_of_sorted Hrec.
    apply (IH _ _ _ _ _ (wf_set_cell _ _ _ _ Hwf)) in Hrec; [done|].
    by apply Inv_step.
Qed.

End invariant.

(** X6.  On a nine by nine board with entries from 0 to 9 that the validator
    accepts, the board [solve] leaves when it returns [True] is a completion
    of the board it was given: a solved board that agrees with every clue. *)
Theorem solve_true_completion g g' :
  wf_grid g → in_range g → is_valid_grid g = true →
  solve g = Some (true, g') → completion g g'.
Proof.
  intros Hwf Hran Hval%is_valid_grid_consistent Hs; [|done].
  by apply (solve_fuel_true_completion (S (count_empty g)) g g').
Qed.

Lemma solve_true_completion_witness : completion classic classic_solution.
Proof.
  apply (solve_true_completion classic classic_solution).
  - apply wf_classic.
  - apply in_range_classic.
  - vm_compute. reflexivity.
  - vm_compute. reflexivity.
Defined.

(** X7.  When [solve] returns [False] the board has no completion at all:
    failure is a proof that the puzzle cannot be solved. *)
Theorem solve_false_no_completion g g' :
  wf_grid g → solve g = Some (false, g') → ¬ ∃ s, completion g s.
Proof.
  intros Hwf Hs [s Hcomp].
  destruct (solve_fuel_complete (S (count_empty g)) g s Hwf Hcomp)
    as [g0 Hg0]; [lia|].
  unfold solve in Hs. congruence.
Qed.

Lemma solve_false_no_completion_witness : ¬ ∃ s, completion GRID s.
Proof.
  apply (solve_false_no_completion GRID GRID).
  - apply wf_GRID.
  - vm_compute. reflexivity.
Defined.

(** X8.  A puzzle with exactly one completion: [solve] returns [True] and
    leaves that completion. *)
Theorem solve_unique g s :
  wf_grid g → completion g s → (∀ s', completion g s' → s' = s) →
  solve g = Some (true, s).
Proof.
  intros Hwf Hcomp Huniq.
  destruct (solve_fuel_complete (S (count_empty g)) g s Hwf Hcomp)
    as [g' Hg']; [lia|].
  destruct (completion_valid g s Hwf Hcomp) as [Hcon Hran].
  pose proof (solve_fuel_true_completion _ g g' Hwf Hcon Hran Hg') as Hc'.
  unfold solve. by rewrite Hg', (Huniq g' Hc').
Qed.

Lemma solve_unique_witness : solve one_blank = Some (true, classic_solution).
Proof.
  assert (wf_grid one_blank) as Hwf by by apply (bool_decide_unpack _).
  assert (completion one_blank classic_solution) as Hcomp.
  { apply (solve_fuel_true_completion (S (count_empty one_blank))).
    - done.
    - apply is_valid_grid_consistent; [done|]. by vm_compute.
    - apply in_range_check; [done|]. by apply (bool_decide_unpack _).
    - by vm_compute. }
  apply (solve_unique one_blank classic_solution Hwf Hcomp).
  intros s' (Hwf' & (Hrows & _) & Hagree).
  assert (wf_grid classic_solution) as Hwfc by apply Hcomp.
  destruct (solved_elim _ Hwfc solved_classic_solution) as [Hcon Hdig].
  assert (∀ q, in_board q → q ≠ (0, 0)%nat →
               cell s' q.1 q.2 = cell classic_solution q.1 q.2) as Hclue.
  { intros q Hq Hne.
    assert (cell one_blank q.1 q.2 = cell classic_solution q.1 q.2) as Hsame.
    { unfold one_blank. apply cell_set_cell_ne; [done|lia|].
      intros Heq. apply Hne. by destruct q. }
    rewrite (Hagree q Hq); [done|].
    rewrite Hsame. pose proof (Hdig q Hq). lia. }
  apply grid_ext; [done|done|].
  intros q Hq. destruct (decide (q = (0, 0)%nat)) as [->|Hne]; [|by apply Hclue].
  cbn [fst snd].
  assert (5 ∈ row s' 0) as Hin.
  { rewrite (Hrows 0%nat) by lia. apply elem_of_seqZ. lia. }
  rewrite row_cells in Hin by (done || lia).
  apply elem_of_cells_at in Hin as (p & [Hp1 Hp2]%elem_of_row_coords & Hv).
  destruct (decide (p = (0, 0)%nat)) as [->|Hp0]; [done|].
  assert (in_board p) as Hp by (split; lia).
  rewrite (Hclue p Hp Hp0) in Hv. exfalso.
  apply (Hcon p (0, 0)%nat Hp); [split; simpl; lia|done|by left| |].
  - rewrite Hv. lia.
  - by rewrite Hv.
Defined.

(** X9.  Running [solve] on the board it left gives the same verdict and
    leaves the board alone. *)
Theorem solve_idempotent g b g' :
  wf_grid g → solve g = Some (b, g') → solve g' = Some (b, g').
Proof.
  intros Hwf Hs. destruct b.
  - apply solve_fuel_true in Hs as [_ Hnone]; [|done].
    unfold solve. simpl. by rewrite Hnone.
  - pose proof (solve_fuel_restores _ g g' Hwf Hs) as ->. done.
Qed.

Lemma solve_idempotent_witness :
  solve classic_solution = Some (true, classic_solution).
Proof.
  apply (solve_idempotent classic true classic_solution).
  - apply wf_classic.
  - vm_compute. reflexivity.
Defined.

(** X10.  On a board without an empty cell [solve] returns [True] and leaves
    the board as it is, whatever the cells hold: the search never validates
    the clues. *)
Theorem solve_full g : full g → solve g = Some (true, g).
Proof.
  intros Hfull%find_mrv_cell_full. unfold solve. simpl. by rewrite Hfull.
Qed.

Lemma solve_full_witness : solve all_fives = Some (true, all_fives).
Proof.
  apply (solve_full all_fives).
  apply full_check; by apply (bool_decide_unpack _).
Defined.

(** X11.  A board with an empty cell that has no candidate makes [solve]
    return [False], wherever the cell is, and the board comes back
    unchanged. *)
Theorem solve_dead_cell g q :
  wf_grid g → in_board q → cell g q.1 q.2 = 0 → candidates g q.1 q.2 = ∅ →
  solve g = Some (false, g).
Proof.
  intros Hwf Hq Hq0 Hdead.
  destruct (solve_fuel_is_Some (S (count_empty g)) g Hwf) as [[b g'] Hs];
    [lia|].
  unfold solve. rewrite Hs. destruct b.
  - apply solve_fuel_true in Hs as [Hpl Hnone]; [|done].
    pose proof (placed_dead g g' q Hpl Hwf Hq Hq0 Hdead) as Hstill.
    by destruct (find_mrv_cell_None g' Hnone q Hq).
  - by rewrite (solve_fuel_restores _ g g' Hwf Hs).
Qed.

Lemma solve_dead_cell_witness : solve early_exit = Some (false, early_exit).
Proof.
  apply (solve_dead_cell early_exit (8, 7)%nat).
  - by apply (bool_decide_unpack _).
  - split; simpl; lia.
  - reflexivity.
  - reflexivity.
Defined.

(** X12.  Invariant of the search: started on a nine by nine board with
    entries from 0 to 9 that the validator accepts, every board handed to a
    recursive call of [solve] is again accepted by the validator and has
    entries from 0 to 9. *)
Theorem solve_keeps_valid g b g' calls :
  wf_grid g → in_range g → is_valid_grid g = true →
  solve_log (S (count_empty g)) 0 g = Some (b, g', calls) →
  Forall (λ e, wf_grid (call_arg e) ∧ in_range (call_arg e) ∧
               is_valid_grid (call_arg e) = true) calls.
Proof.
  intros Hwf Hran Hval Hlog.
  apply (solve_log_inv (λ h, wf_grid h ∧ in_range h ∧ is_valid_grid h = true))
    in Hlog; [done| |done|done].
  intros h r c d Hwfh Hrc Hd (_ & Hranh & Hvalh).
  split; [by apply wf_set_cell|]. split; [by apply in_range_set_cell|].
  apply is_valid_grid_consistent; [by apply wf_set_cell|].
  apply consistent_set_cell; try done.
  by apply is_valid_grid_consistent.
Qed.

Lemma solve_keeps_valid_witness :
  ∃ calls,
    solve_log (S (count_empty classic)) 0 classic =
      Some (true, classic_solution, calls) ∧
    Forall (λ e, wf_grid (call_arg e) ∧ in_range (call_arg e) ∧
                 is_valid_grid (call_arg e) = true) calls.
Proof.
  destruct (solve_log_is_Some (S (count_empty classic)) 0 classic true
              classic_solution) as [calls Hlog]; [by vm_compute|].
  exists calls. split; [done|].
  apply (solve_keeps_valid classic true classic_solution calls).
  - apply wf_classic.
  - apply in_range_classic.
  - vm_compute. reflexivity.
  - exact Hlog.
Defined.

(* ================================================================== *)
(** * Further properties of the input loop *)

Section more_input.
Implicit Types (stdin ls extra : list string) (line l : string).
Implicit Types (acc : list (list Z)) (cs cur : list ascii).

(** One turn of the loop. *)
Lemma read_lines_step line rest acc :
  read_lines (line :: rest) acc =
    if decide (strip line = EmptyString) then read_lines rest acc
    else if (length (parts_of (strip line)) =? 9)%nat then
      match ints_of (parts_of (strip line)) with
      | None => None
      | Some row =>
          if (length (acc ++ [row]) =? 9)%nat then finish (acc ++ [row])
          else read_lines rest (acc ++ [row])
      end
    else if nine_digits (strip line) then
      if (length (acc ++ [digits_of (strip line)]) =? 9)%nat
      then finish (acc ++ [digits_of (strip line)])
      else read_lines rest (acc ++ [digits_of (strip line)])
    else if (length acc =? 9)%nat then finish acc
    else read_lines rest acc.
Proof.
  simpl. case_decide; [done|].
  destruct (length (parts_of (strip line)) =? 9)%nat; [done|].
  by destruct (nine_digits (strip line)).
Qed.

Lemma is_digit_not_space a : is_digit a = true → is_space a = false.
Proof.
  unfold is_digit, is_space. cbn zeta.
  intros [H1 H2]%andb_true_iff. apply Nat.leb_le in H1, H2.
  apply orb_false_iff. split; apply andb_false_iff; right; apply Nat.leb_gt; lia.
Qed.

Lemma is_digit_not_comma a : is_digit a = true → Ascii.eqb a "," = false.
Proof.
  intros Hd. destruct (Ascii.eqb_spec a ",") as [->|]; [|done].
  by vm_compute in Hd.
Qed.

Lemma drop_spaces_id cs :
  Forall (λ a, is_space a = false) cs → drop_spaces cs = cs.
Proof. destruct 1 as [|a cs Ha _]; simpl; [done|by rewrite Ha]. Qed.

(** A line without whitespace is its own [strip()]. *)
Lemma strip_id l :
  Forall (λ a, is_space a = false) (list_ascii_of_string l) → strip l = l.
Proof.
  intros Hns. unfold strip. rewrite (drop_spaces_id _ Hns).
  rewrite drop_spaces_id by by apply Forall_reverse.
  by rewrite reverse_involutive, string_of_list_ascii_of_string.
Qed.

Lemma split_go_no_space cur cs :
  Forall (λ a, is_space a = false) cs →
  split_go cur cs = split_go (reverse cs ++ cur) [].
Proof.
  intros Hns. revert cur. induction Hns as [|a cs Ha _ IH]; intros cur; [done|].
  simpl. rewrite Ha, IH, reverse_cons, <-app_assoc. done.
Qed.

(** Text without whitespace is at most one piece for [split()]. *)
Lemma split_no_space_length cs :
  Forall (λ a, is_space a = false) cs →
  (length (split_go [] cs) ≤ 1)%nat.
Proof.
  intros Hns. rewrite split_go_no_space by done. simpl.
  destruct (reverse cs ++ []); simpl; lia.
Qed.

Lemma nine_digits_shape l :
  nine_digits l = true →
  strip l = l ∧ l ≠ EmptyString ∧ (length (parts_of l) =? 9)%nat = false.
Proof.
  unfold nine_digits.
  rewrite andb_true_iff, Nat.eqb_eq, forallb_forall.
  intros [Hlen Hdig].
  assert (Forall (λ a, is_digit a = true) (list_ascii_of_string l)) as Hall
    by (apply Forall_forall; intros a Ha; by apply Hdig, list_elem_of_In).
  split; [|split].
  - apply strip_id. eapply Forall_impl; [done|]. apply is_digit_not_space.
  - intros ->. simpl in Hlen. lia.
  - apply Nat.eqb_neq. unfold parts_of, split, replace_commas.
    rewrite list_ascii_of_string_of_list_ascii.
    pose proof (length_filter (λ p, p ≠ EmptyString)
      (split_go [] ((λ a, if Ascii.eqb a "," then " "%char else a) <$>
                      list_ascii_of_string l))) as Hle.
    pose proof (split_no_space_length
      ((λ a, if Ascii.eqb a "," then " "%char else a) <$>
         list_ascii_of_string l)) as Hone.
    assert (Forall (λ a, is_space a = false)
              ((λ a, if Ascii.eqb a "," then " "%char else a) <$>
                 list_ascii_of_string l)) as Hns.
    { apply Forall_fmap. eapply Forall_impl; [done|]. intros a Ha. simpl.
      rewrite (is_digit_not_comma a Ha). by apply is_digit_not_space. }
    specialize (Hone Hns). lia.
Qed.

Lemma read_lines_digits ls acc :
  Forall (λ l, nine_digits l = true) ls →
  (length acc + length ls = 9)%nat →
  read_lines ls acc = Some (acc ++ (digits_of <$> ls)).
Proof.
  intros Hall. revert acc. induction Hall as [|l ls Hl _ IH]; intros acc Hlen.
  - simpl in *. unfold finish.
    replace (length acc =? 9)%nat with true by (symmetry; apply Nat.eqb_eq; lia).
    by rewrite app_nil_r.
  - destruct (nine_digits_shape l Hl) as (Hstrip & Hne & Hparts).
    rewrite read_lines_step, Hstrip, decide_False, Hparts, Hl by done.
    rewrite length_app. simpl in *.
    destruct (length acc + 1 =? 9)%nat eqn:Hnine.
    + apply Nat.eqb_eq in Hnine. destruct ls; [|simpl in Hlen; lia].
      unfold finish. rewrite length_app. simpl.
      by replace (length acc + 1 =? 9)%nat with true
        by (symmetry; apply Nat.eqb_eq; lia).
    + apply Nat.eqb_neq in Hnine. rewrite IH.
      * by rewrite <-app_assoc.
      * rewrite length_app. simpl. lia.
Qed.

Lemma read_lines_app ls extra acc g :
  (length acc < 9)%nat →
  read_lines ls acc = Some g → read_lines (ls ++ extra) acc = Some g.
Proof.
  revert acc. induction ls as [|line rest IH]; intros acc Hacc Hres.
  { apply finish_Some in Hres as [_ Hlen]. lia. }
  rewrite <-app_comm_cons. rewrite read_lines_step in Hres |- *.
  assert (∀ row,
    (if (length (acc ++ [row]) =? 9)%nat then finish (acc ++ [row])
     else read_lines rest (acc ++ [row])) = Some g →
    (if (length (acc ++ [row]) =? 9)%nat then finish (acc ++ [row])
     else read_lines (rest ++ extra) (acc ++ [row])) = Some g) as Hrow.
  { intros row. destruct (length (acc ++ [row]) =? 9)%nat eqn:Hnine; [done|].
    apply IH. apply Nat.eqb_neq in Hnine.
    rewrite length_app in *. simpl in *. lia. }
  case_decide; [by apply IH|].
  destruct (length (parts_of (strip line)) =? 9)%nat.
  - destruct (ints_of (parts_of (strip line))); [by apply Hrow|done].
  - destruct (nine_digits (strip line)); [by apply Hrow|].
    replace (length acc =? 9)%nat with false in *
      by (symmetry; apply Nat.eqb_neq; lia).
    by apply IH.
Qed.

Lemma read_lines_skip_blank ls acc :
  read_lines (filter (λ l, strip l ≠ EmptyString) ls) acc = read_lines ls acc.
Proof.
  revert acc. induction ls as [|line rest IH]; intros acc; [done|].
  rewrite filter_cons. case_decide as Hblank.
  - rewrite !read_lines_step, !decide_False by done.
    destruct (length (parts_of (strip line)) =? 9)%nat.
    + destruct (ints_of (parts_of (strip line))) as [row|]; [|done].
      destruct (length (acc ++ [row]) =? 9)%nat; [done|apply IH].
    + destruct (nine_digits (strip line)).
      * destruct (length (acc ++ [digits_of (strip line)]) =? 9)%nat;
          [done|apply IH].
      * destruct (length acc =? 9)%nat; [done|apply IH].
  - rewrite (read_lines_step line), decide_True by done. apply IH.
Qed.

End more_input.

(** X13.  Nine lines of nine digits each are read as they stand: the grid
    returned holds, row by row, the digit values of the characters. *)
Theorem read_grid_digit_lines ls :
  length ls = 9%nat → Forall (λ l, nine_digits l = true) ls →
  read_grid_from_stdin ls = Some (digits_of <$> ls).
Proof.
  intros Hlen Hall. unfold read_grid_from_stdin.
  by rewrite (read_lines_digits ls []).
Qed.

Lemma read_grid_digit_lines_witness :
  read_grid_from_stdin two_fives_input = Some (digits_of <$> two_fives_input).
Proof.
  apply (read_grid_digit_lines two_fives_input).
  - reflexivity.
  - by apply (bool_decide_unpack _).
Defined.

(** X14.  The reading stops at the ninth accepted line: whatever follows an
    input that already gives a grid does not change the grid. *)
Theorem read_grid_ignores_rest ls extra g :
  read_grid_from_stdin ls = Some g →
  read_grid_from_stdin (ls ++ extra) = Some g.
Proof. apply read_lines_app. simpl. lia. Qed.

Lemma read_grid_ignores_rest_witness :
  read_grid_from_stdin (two_fives_input ++ ["not a row"%string]) =
    Some (replicate 9 [5; 5; 0; 0; 0; 0; 0; 0; 0]).
Proof.
  apply (read_grid_ignores_rest two_fives_input ["not a row"%string]).
  vm_compute. reflexivity.
Defined.

(** X15.  Lines that are empty once stripped can be added or removed
    anywhere in the input without changing what is read. *)
Theorem read_grid_skips_blank_lines stdin :
  read_grid_from_stdin (filter (λ l, strip l ≠ EmptyString) stdin) =
    read_grid_from_stdin stdin.
Proof. apply read_lines_skip_blank. Qed.

(* ================================================================== *)
(** * The printed board and the runs of the program *)

Section more_output.
Implicit Types (g : Grid) (r c : nat) (v : Z) (s t : string).






(** A run without [sys.exit] ends with status 0. *)
Lemma exit_status_no_exit (run : list event) :
  Forall (λ e, ¬ is_exit e) run → exit_status run = 0.
Proof.
  intros Hno. unfold exit_status.
  destruct (last run) as [e|] eqn:Hlast; [|done].
  apply last_Some_elem_of in Hlast.
  pose proof (proj1 (Forall_forall _ _) Hno e Hlast) as He.
  by destruct e.
Qed.

Lemma Forall_print_no_exit (lines : list string) :
  Forall (λ e, ¬ is_exit e) (Print <$> lines).
Proof. apply Forall_fmap, Forall_forall. by intros ? _ []. Qed.

Lemma Forall_print_no_solve (lines : list string) :
  Forall (λ e, ¬ is_solve e) (Print <$> lines).
Proof. apply Forall_fmap, Forall_forall. by intros ? _ []. Qed.

End more_output.





(** X18.  A run on a puzzle with entries from 0 to 9 that the validator
    accepts and the search solves: the program prints the heading and the
    board it was given, calls [solve], prints the heading of the result and a
    board that is a completion of the board it was given, and returns. *)
Theorem main_solved stdin g' :
  in_range (main_grid stdin) → is_valid_grid (main_grid stdin) = true →
  solve (main_grid stdin) = Some (true, g') →
  main stdin =
    Some ([Print "Input:"] ++ (Print <$> print_grid (main_grid stdin)) ++
          [Solve (main_grid stdin); Print (newline ++ "Solved:")] ++
          (Print <$> print_grid g')) ∧
  completion (main_grid stdin) g'.
Proof.
  intros Hran Hval Hs. split.
  - unfold main. cbn zeta. by rewrite copy_grid_id, Hval, Hs.
  - apply (solve_fuel_true_completion (S (count_empty (main_grid stdin))));
      [apply wf_main_grid| |done|done].
    apply is_valid_grid_consistent; [apply wf_main_grid|done].
Qed.

Lemma main_solved_witness :
  main classic_input =
    Some ([Print "Input:"] ++ (Print <$> print_grid (main_grid classic_input)) ++
          [Solve (main_grid classic_input); Print (newline ++ "Solved:")] ++
          (Print <$> print_grid classic_solution)) ∧
  completion (main_grid classic_input) classic_solution.
Proof.
  assert (main_grid classic_input = classic) as Hgrid by reflexivity.
  apply (main_solved classic_input classic_solution).
  - rewrite Hgrid. apply in_range_classic.
  - vm_compute. reflexivity.
  - vm_compute. reflexivity.
Defined.

(* ================================================================== *)
(** * Writing integers and reading them back *)

Section round_trip.
Implicit Types (x : N) (z : Z) (s t : string) (cs ds cur rest : list ascii).






















End round_trip.




(* ================================================================== *)
(** * The validator on full boards, and the order of the trials *)

Section more_loop.
Variable rec : Grid → option (bool * Grid).
Variables (r c : nat).
Hypothesis Hr : (r < 9)%nat.
Hypothesis Hc : (c < 9)%nat.

(** A successful loop succeeded at one digit after failing at every digit
    before it. *)
Lemma try_digits_first ds g g' :
  wf_grid g → cell g r c = 0 →
  (∀ d g1, d ∈ ds → rec (set_cell g r c d) = Some (false, g1) →
           g1 = set_cell g r c d) →
  try_digits rec r c ds g = Some (true, g') →
  ∃ ds1 d ds2, ds = ds1 ++ d :: ds2 ∧
    rec (set_cell g r c d) = Some (true, g') ∧
    ∀ d', d' ∈ ds1 →
      rec (set_cell g r c d') = Some (false, set_cell g r c d').
Proof.
  intros Hwf H0. induction ds as [|d ds IH]; intros Hrec Hres; [done|].
  simpl in Hres.
  destruct (rec (set_cell g r c d)) as [[[] g1]|] eqn:Hd; [| |done].
  - injection Hres as <-. exists [], d, ds. split; [done|]. split; [done|].
    intros d' Hd'. by apply elem_of_nil in Hd'.
  - pose proof (Hrec d g1 ltac:(by left) Hd) as ->.
    rewrite set_cell_undo in Hres by done.
    destruct IH as (ds1 & d0 & ds2 & -> & Hd0 & Hfail); [|done|].
    { intros d' g2 Hd'. apply Hrec. by right. }
    exists (d :: ds1), d0, ds2. split; [done|]. split; [done|].
    intros d' [->|Hd']%elem_of_cons; [done|by apply Hfail].
Qed.

End more_loop.

Section more_valid.
Implicit Types (g : Grid) (r c : nat) (p q : nat * nat).

Lemma consistent_clear g r c :
  wf_grid g → (r < 9)%nat → (c < 9)%nat →
  consistent g → consistent (set_cell g r c 0).
Proof.
  intros Hwf Hr Hc Hcon p q Hp Hq Hne Hpe.
  rewrite !cell_set_cell by done.
  destruct p as [pr pc], q as [qr qc]. cbn [fst snd].
  repeat case_decide; simplify_eq; try done.
  by apply (Hcon (pr, pc) (qr, qc)).
Qed.

End more_valid.

(** X21.  Emptying a cell of a board that the validator accepts gives a
    board that it accepts: the undo step of the search cannot make the board
    invalid. *)
Theorem is_valid_grid_clear g r c :
  wf_grid g → (r < 9)%nat → (c < 9)%nat →
  is_valid_grid g = true → is_valid_grid (set_cell g r c 0) = true.
Proof.
  intros Hwf Hr Hc Hval%is_valid_grid_consistent; [|done].
  apply is_valid_grid_consistent; [by apply wf_set_cell|].
  by apply consistent_clear.
Qed.

Lemma is_valid_grid_clear_witness :
  is_valid_grid (set_cell GRID 0 0 0) = true.
Proof.
  apply (is_valid_grid_clear GRID 0 0).
  - apply wf_GRID.
  - lia.
  - lia.
  - reflexivity.
Defined.

(** X22.  On a board without an empty cell and with entries from 1 to 9, the
    validator accepts exactly the solved boards. *)
Theorem is_valid_grid_full g :
  wf_grid g → in_range g → full g →
  is_valid_grid g = true ↔ solved g.
Proof.
  intros Hwf Hran Hfull. rewrite is_valid_grid_consistent by done. split.
  - intros Hcon. by apply solved_intro.
  - intros Hsol. by apply solved_elim.
Qed.

Lemma is_valid_grid_full_witness :
  is_valid_grid classic_solution = true ↔ solved classic_solution.
Proof.
  assert (wf_grid classic_solution) as Hwf by by apply (bool_decide_unpack _).
  apply (is_valid_grid_full classic_solution).
  - done.
  - apply in_range_check; [done|]. by apply (bool_decide_unpack _).
  - apply full_check; [done|]. by apply (bool_decide_unpack _).
Defined.

(** X23.  Ascending trial order: when [solve] succeeds, the digit it leaves
    in the cell that [find_mrv_cell] selected first is a candidate of that
    cell, and no smaller candidate leads to a completion. *)
Theorem solve_least_digit g r c cands g' :
  wf_grid g → find_mrv_cell g = Some (r, c, cands) →
  solve g = Some (true, g') →
  cell g' r c ∈ cands ∧
  ∀ d', d' ∈ cands → d' < cell g' r c →
        ¬ ∃ s, completion (set_cell g r c d') s.
Proof.
  intros Hwf Hf Hs. unfold solve in Hs. simpl in Hs. rewrite Hf in Hs.
  destruct (find_mrv_cell_Some _ _ _ _ Hf) as ([Hr Hc] & H0 & ->).
  cbn [fst snd] in Hr, Hc. case_decide; [done|].
  apply try_digits_first in Hs as (ds1 & d & ds2 & Hds & Hd & Hfail);
    try done.
  2:{ intros d0 g1 _ Hd0. apply (solve_fuel_restores (count_empty g));
        [by apply wf_set_cell|done]. }
  assert (d ∈ candidates g r c) as Hdc
    by (apply elem_of_sorted; rewrite Hds; apply elem_of_app; right; by left).
  assert (cell g' r c = d) as Hcell.
  { apply solve_fuel_true in Hd as [Hpl _]; [|by apply wf_set_cell].
    pose proof (placed_clues _ _ Hpl (wf_set_cell _ _ _ _ Hwf) (r, c)) as Hk.
    cbn [fst snd] in Hk. rewrite cell_set_cell_eq in Hk by done.
    apply Hk; [by split|]. apply elem_of_candidates in Hdc. lia. }
  rewrite Hcell. split; [done|]. intros d' Hd' Hlt [s Hcomp].
  assert (StronglySorted Z.le (ds1 ++ d :: ds2)) as Hsorted
    by (rewrite <-Hds; apply (StronglySorted_merge_sort _)).
  assert (d' ∈ ds1) as Hin.
  { apply elem_of_sorted in Hd'. rewrite Hds in Hd'.
    apply elem_of_app in Hd' as [?|[->|Hd2]%elem_of_cons]; [done|lia|].
    apply StronglySorted_app_1_r in Hsorted.
    apply StronglySorted_inv in Hsorted as [_ Hall].
    pose proof (proj1 (Forall_forall _ _) Hall d' Hd2). lia. }
  pose proof (Hfail d' Hin) as Hfalse.
  destruct (solve_fuel_complete (count_empty g) (set_cell g r c d') s)
    as [g0 Hg0]; [by apply wf_set_cell|done| |congruence].
  apply elem_of_candidates in Hd'.
  rewrite (count_empty_set_cell g r c d'); [lia|done|by split|done|lia].
Qed.

Lemma solve_least_digit_witness :
  cell classic_solution 0 1 ∈ candidates branching 0 1 ∧
  ∀ d', d' ∈ candidates branching 0 1 → d' < cell classic_solution 0 1 →
        ¬ ∃ s, completion (set_cell branching 0 1 d') s.
Proof.
  apply (solve_least_digit branching 0 1 (candidates branching 0 1)
           classic_solution).
  - apply (bool_decide_unpack _). vm_compute. exact I.
  - vm_compute. reflexivity.
  - vm_compute. reflexivity.
Defined.

Example branching_first_trial_fails :
  sorted (candidates branching 0 1) = [2; 3] ∧ cell classic_solution 0 1 = 3.
Proof. split; reflexivity. Qed.
